(** * sse-and-ws-examples: a terminal chat relay over WebSockets and a
      one-way Server-Sent-Events demo

    Shallow embedding of

    - [sockets/server.js]  : the chat relay (a [Set] of sockets and the
                             broadcast loop of the ['message'] handler);
    - [sockets/user2.js]   : the chat client's line callback;
    - [SSE/server/server.js] : the [/events] handler and its interval;
    - [SSE/client/client.js] : the chunk parser of [startSSE];

    together with the parts of the JavaScript runtime these files call
    ([Set], [String.prototype.trim/includes/replace], [JSON.parse],
    [JSON.stringify], [Date.prototype.toISOString]). *)

From Stdlib Require Import List ZArith NArith Lia Bool String Ascii.
Import ListNotations.

Set Warnings "-register-all".

(* ===================================================================== *)
(** * Part I. Definitions                                                 *)
(* ===================================================================== *)

(** ** The JavaScript values the programs handle *)

Module JS.

(** A JavaScript string is a sequence of UTF-16 code units. *)
Definition jsstring := list N.

(** The code units of an ASCII literal. *)
Fixpoint lit (s : string) : jsstring :=
  match s with
  | EmptyString => []
  | String a s' => N_of_ascii a :: lit s'
  end.

(** The completion of a callback: it returns, or an exception leaves it.
    Both carry the state reached at that point. *)
Inductive Completion (A : Type) : Type :=
| Normal (a : A)
| Throw (a : A).

Arguments Normal {A} a.
Arguments Throw {A} a.

Definition state_of {A : Type} (c : Completion A) : A :=
  match c with
  | Normal a => a
  | Throw a => a
  end.

Definition returns {A : Type} (c : Completion A) : bool :=
  match c with
  | Normal _ => true
  | Throw _ => false
  end.

(** [Set]: a collection of distinct values that iterates in insertion
    order.  [add] of a present value keeps the set (and the position of
    the value); [delete] of an absent value keeps the set. *)
Section SetOf.
Variable elt : Type.
Variable eqb : elt -> elt -> bool.

Fixpoint set_has (x : elt) (s : list elt) : bool :=
  match s with
  | [] => false
  | y :: s' => eqb y x || set_has x s'
  end.

Definition set_add (x : elt) (s : list elt) : list elt :=
  if set_has x s then s else s ++ [x].

Fixpoint set_delete (x : elt) (s : list elt) : list elt :=
  match s with
  | [] => []
  | y :: s' => if eqb y x then set_delete x s' else y :: set_delete x s'
  end.

Definition set_size (s : list elt) : nat := List.length s.
End SetOf.

Arguments set_has {elt} eqb x s.
Arguments set_add {elt} eqb x s.
Arguments set_delete {elt} eqb x s.
Arguments set_size {elt} s.

(** *** String.prototype *)

(** WhiteSpace and LineTerminator code points, all in the basic plane:
    TAB, LF, VT, FF, CR, SP, NBSP, U+1680, U+2000..U+200A, LS, PS, U+202F,
    U+205F, U+3000 and ZWNBSP. *)
Definition is_white_space (c : N) : bool :=
  ((9 <=? c) && (c <=? 13) || (c =? 32) || (c =? 160) || (c =? 5760) ||
   (8192 <=? c) && (c <=? 8202) || (c =? 8232) || (c =? 8233) ||
   (c =? 8239) || (c =? 8287) || (c =? 12288) || (c =? 65279))%N.

Fixpoint trimStart (s : jsstring) : jsstring :=
  match s with
  | [] => []
  | c :: s' => if is_white_space c then trimStart s' else s
  end.

Definition trimEnd (s : jsstring) : jsstring := rev (trimStart (rev s)).

(** [s.trim()] *)
Definition trim (s : jsstring) : jsstring := trimEnd (trimStart s).

(** Whether [s] begins with [p]. *)
Fixpoint starts_with (p s : jsstring) : bool :=
  match p, s with
  | [], _ => true
  | _ :: _, [] => false
  | a :: p', b :: s' => (a =? b)%N && starts_with p' s'
  end.

(** [s.includes(p)] *)
Fixpoint includes (s p : jsstring) : bool :=
  starts_with p s ||
  match s with
  | [] => false
  | _ :: s' => includes s' p
  end.

(** [s.replace(p, r)] for a string pattern [p] and a replacement [r]
    without [$]: the first occurrence of [p], if any, becomes [r]. *)
Fixpoint replace (s p r : jsstring) : jsstring :=
  if starts_with p s then r ++ skipn (List.length p) s
  else match s with
       | [] => []
       | c :: s' => c :: replace s' p r
       end.

(** *** JSON *)

(** The syntax tree of a JSON text.  A number keeps its literal and an
    object its members as written: the programs only print the value
    [JSON.parse] returns, what matters is whether it returns. *)
Inductive json : Type :=
| JNull
| JBool (b : bool)
| JNumber (literal : jsstring)
| JString (s : jsstring)
| JArray (elements : list json)
| JObject (members : list (jsstring * json)).

Inductive parse (A : Type) : Type :=
| Parsed (a : A) (rest : jsstring)
| SyntaxError
| OutOfFuel.

Arguments Parsed {A} a rest.
Arguments SyntaxError {A}.
Arguments OutOfFuel {A}.

(** JSON white space: TAB, LF, CR and SP. *)
Definition json_ws (c : N) : bool :=
  ((c =? 9) || (c =? 10) || (c =? 13) || (c =? 32))%N.

Fixpoint skip_ws (s : jsstring) : jsstring :=
  match s with
  | [] => []
  | c :: s' => if json_ws c then skip_ws s' else s
  end.

Definition is_digit (c : N) : bool := ((48 <=? c) && (c <=? 57))%N.

(** The longest prefix of digits, and what follows it. *)
Fixpoint span_digits (s : jsstring) : jsstring * jsstring :=
  match s with
  | [] => ([], [])
  | c :: s' =>
      if is_digit c
      then let (d, r) := span_digits s' in (c :: d, r)
      else ([], s)
  end.

(** int: [0], or a digit from 1 to 9 and then digits. *)
Definition parse_int (s : jsstring) : option (jsstring * jsstring) :=
  match s with
  | [] => None
  | c :: r =>
      if (c =? 48)%N then Some ([c], r)
      else if is_digit c
           then let (d, r') := span_digits r in Some (c :: d, r')
           else None
  end.

(** frac: nothing, or [.] and one digit at least. *)
Definition parse_frac (s : jsstring) : option (jsstring * jsstring) :=
  match s with
  | [] => Some ([], [])
  | c :: r =>
      if (c =? 46)%N
      then match span_digits r with
           | ([], _) => None
           | (d, r') => Some (c :: d, r')
           end
      else Some ([], s)
  end.

(** exp: nothing, or [e] or [E], an optional sign and one digit at least. *)
Definition parse_exp (s : jsstring) : option (jsstring * jsstring) :=
  match s with
  | [] => Some ([], [])
  | c :: r =>
      if ((c =? 101) || (c =? 69))%N
      then
        let (sign, r1) :=
          match r with
          | [] => ([], [])
          | x :: r1 => if ((x =? 43) || (x =? 45))%N then ([x], r1) else ([], r)
          end in
        match span_digits r1 with
        | ([], _) => None
        | (d, r') => Some (c :: sign ++ d, r')
        end
      else Some ([], s)
  end.

(** number: an optional [-], int, frac, exp. *)
Definition parse_number (s : jsstring) : option (jsstring * jsstring) :=
  let (sign, s1) :=
    match s with
    | [] => ([], [])
    | c :: r => if (c =? 45)%N then ([c], r) else ([], s)
    end in
  match parse_int s1 with
  | None => None
  | Some (i, s2) =>
      match parse_frac s2 with
      | None => None
      | Some (f, s3) =>
          match parse_exp s3 with
          | None => None
          | Some (e, s4) => Some (sign ++ i ++ f ++ e, s4)
          end
      end
  end.

Definition hex_value (c : N) : option N :=
  (if (48 <=? c) && (c <=? 57) then Some (c - 48)
   else if (97 <=? c) && (c <=? 102) then Some (c - 87)
   else if (65 <=? c) && (c <=? 70) then Some (c - 55)
   else None)%N.

Definition hex4 (h1 h2 h3 h4 : N) : option N :=
  match hex_value h1, hex_value h2, hex_value h3, hex_value h4 with
  | Some a, Some b, Some c, Some d => Some (((a * 16 + b) * 16 + c) * 16 + d)%N
  | _, _, _, _ => None
  end.

(** The character a one-letter escape stands for. *)
Definition simple_escape (e : N) : option N :=
  (if e =? 34 then Some 34            (* quotation mark *)
   else if e =? 92 then Some 92       (* reverse solidus *)
   else if e =? 47 then Some 47       (* solidus *)
   else if e =? 98 then Some 8        (* b *)
   else if e =? 102 then Some 12      (* f *)
   else if e =? 110 then Some 10      (* n *)
   else if e =? 114 then Some 13      (* r *)
   else if e =? 116 then Some 9       (* t *)
   else None)%N.

Definition cons_char (c : N) (p : option (jsstring * jsstring))
    : option (jsstring * jsstring) :=
  match p with
  | Some (s, r) => Some (c :: s, r)
  | None => None
  end.

(** The characters of a string after its opening quotation mark, up to
    the closing one: no control character, escapes decoded. *)
Fixpoint parse_chars (s : jsstring) : option (jsstring * jsstring) :=
  match s with
  | [] => None
  | c :: r =>
      if (c =? 34)%N then Some ([], r)
      else if (c <? 32)%N then None
      else if (c =? 92)%N then
        match r with
        | [] => None
        | e :: r1 =>
            if (e =? 117)%N then
              match r1 with
              | h1 :: h2 :: h3 :: h4 :: r2 =>
                  match hex4 h1 h2 h3 h4 with
                  | Some u => cons_char u (parse_chars r2)
                  | None => None
                  end
              | _ => None
              end
            else
              match simple_escape e with
              | Some x => cons_char x (parse_chars r1)
              | None => None
              end
        end
      else cons_char c (parse_chars r)
  end.

(** value, elements (after an opening bracket or a comma) and members
    (after an opening brace or a comma).  Each call that is not on a
    shorter text spends one unit of [fuel]. *)
Fixpoint parse_value (fuel : nat) (s : jsstring) : parse json :=
  match fuel with
  | O => OutOfFuel
  | S fuel' =>
      match skip_ws s with
      | [] => SyntaxError
      | c :: r =>
          if (c =? 123)%N then                      (* left brace *)
            match skip_ws r with
            | [] => SyntaxError
            | c' :: r' =>
                if (c' =? 125)%N then Parsed (JObject []) r'
                else parse_members fuel' r []
            end
          else if (c =? 91)%N then                  (* left bracket *)
            match skip_ws r with
            | [] => SyntaxError
            | c' :: r' =>
                if (c' =? 93)%N then Parsed (JArray []) r'
                else parse_elements fuel' r []
            end
          else if (c =? 34)%N then                  (* quotation mark *)
            match parse_chars r with
            | Some (str, r') => Parsed (JString str) r'
            | None => SyntaxError
            end
          else if starts_with (lit "true") (c :: r)
            then Parsed (JBool true) (skipn 4 (c :: r))
          else if starts_with (lit "false") (c :: r)
            then Parsed (JBool false) (skipn 5 (c :: r))
          else if starts_with (lit "null") (c :: r)
            then Parsed JNull (skipn 4 (c :: r))
          else
            match parse_number (c :: r) with
            | Some (n, r') => Parsed (JNumber n) r'
            | None => SyntaxError
            end
      end
  end
with parse_elements (fuel : nat) (s : jsstring) (acc : list json)
    : parse json :=
  match fuel with
  | O => OutOfFuel
  | S fuel' =>
      match parse_value fuel' s with
      | Parsed v r =>
          match skip_ws r with
          | [] => SyntaxError
          | c :: r' =>
              if (c =? 44)%N then parse_elements fuel' r' (v :: acc)
              else if (c =? 93)%N then Parsed (JArray (rev (v :: acc))) r'
              else SyntaxError
          end
      | SyntaxError => SyntaxError
      | OutOfFuel => OutOfFuel
      end
  end
with parse_members (fuel : nat) (s : jsstring) (acc : list (jsstring * json))
    : parse json :=
  match fuel with
  | O => OutOfFuel
  | S fuel' =>
      match skip_ws s with
      | [] => SyntaxError
      | q :: r =>
          if (q =? 34)%N then
            match parse_chars r with
            | None => SyntaxError
            | Some (key, r1) =>
                match skip_ws r1 with
                | [] => SyntaxError
                | colon :: r2 =>
                    if (colon =? 58)%N then
                      match parse_value fuel' r2 with
                      | Parsed v r3 =>
                          match skip_ws r3 with
                          | [] => SyntaxError
                          | c :: r4 =>
                              if (c =? 44)%N
                              then parse_members fuel' r4 ((key, v) :: acc)
                              else if (c =? 125)%N
                              then Parsed (JObject (rev ((key, v) :: acc))) r4
                              else SyntaxError
                          end
                      | SyntaxError => SyntaxError
                      | OutOfFuel => OutOfFuel
                      end
                    else SyntaxError
                end
            end
          else SyntaxError
      end
  end.

(** [JSON.parse(text)]: one value, white space around it, nothing else.
    [SyntaxError] is the exception it throws. *)
Definition JSON_parse (text : jsstring) : parse json :=
  match parse_value (2 * List.length text + 1) text with
  | Parsed v rest =>
      match skip_ws rest with
      | [] => Parsed v []
      | _ :: _ => SyntaxError
      end
  | SyntaxError => SyntaxError
  | OutOfFuel => OutOfFuel
  end.

(** What a parser call owes: an answer, and a shorter text if it parsed. *)
Definition progress (s : jsstring) (p : parse json) : Prop :=
  match p with
  | Parsed _ r => List.length r < List.length s
  | SyntaxError => True
  | OutOfFuel => False
  end.

(** A character that JSON strings hold as it is: printable ASCII other
    than the quotation mark and the reverse solidus. *)
Definition plain (c : N) : bool :=
  ((32 <=? c) && (c <? 127) && negb (c =? 34) && negb (c =? 92))%N.

(** [u] followed by the four lower-case hexadecimal digits of [c], after a
    reverse solidus. *)
Definition hex_digit (n : N) : N := (if n <? 10 then 48 + n else 87 + n)%N.

Definition unicode_escape (c : N) : jsstring :=
  [92; 117; hex_digit ((c / 4096) mod 16); hex_digit ((c / 256) mod 16);
   hex_digit ((c / 16) mod 16); hex_digit (c mod 16)]%N.

Definition is_high_surrogate (c : N) : bool := ((55296 <=? c) && (c <=? 56319))%N.
Definition is_low_surrogate (c : N) : bool := ((56320 <=? c) && (c <=? 57343))%N.

(** QuoteJSONString, between the quotation marks: the two-character
    escapes, [u] escapes for the other control characters and for lone
    surrogates, everything else as it is. *)
Fixpoint quote_chars (s : jsstring) : jsstring :=
  match s with
  | [] => []
  | c :: r =>
      (if c =? 8 then [92; 98] ++ quote_chars r
       else if c =? 9 then [92; 116] ++ quote_chars r
       else if c =? 10 then [92; 110] ++ quote_chars r
       else if c =? 12 then [92; 102] ++ quote_chars r
       else if c =? 13 then [92; 114] ++ quote_chars r
       else if c =? 34 then [92; 34] ++ quote_chars r
       else if c =? 92 then [92; 92] ++ quote_chars r
       else if c <? 32 then unicode_escape c ++ quote_chars r
       else if is_high_surrogate c then
         match r with
         | [] => unicode_escape c
         | c2 :: r2 =>
             if is_low_surrogate c2 then c :: c2 :: quote_chars r2
             else unicode_escape c ++ quote_chars r
         end
       else if is_low_surrogate c then unicode_escape c ++ quote_chars r
       else c :: quote_chars r)%N
  end.

Definition QuoteJSONString (s : jsstring) : jsstring :=
  (34 :: quote_chars s ++ [34])%N.

(** The texts of [l], with a comma between them. *)
Fixpoint join_comma (l : list jsstring) : jsstring :=
  match l with
  | [] => []
  | [x] => x
  | x :: l' => x ++ (44%N :: join_comma l')
  end.

(** [JSON.stringify(value)], without indentation.  The members of an
    object are its own properties in creation order (none of the keys of
    these programs is an array index). *)
Fixpoint JSON_stringify (v : json) : jsstring :=
  match v with
  | JNull => lit "null"
  | JBool true => lit "true"
  | JBool false => lit "false"
  | JNumber literal => literal
  | JString s => QuoteJSONString s
  | JArray elements =>
      (91 :: join_comma (map JSON_stringify elements) ++ [93])%N
  | JObject members =>
      (123 :: join_comma
                (map (fun kv => match kv with
                                | (k, x) => QuoteJSONString k ++
                                            (58 :: JSON_stringify x)
                                end) members) ++ [125])%N
  end.

(** *** Date *)

(** Time values are milliseconds since the epoch, at most 8.64e15 either
    way. *)
Definition valid_time (t : Z) : Prop :=
  (-8640000000000000 <= t <= 8640000000000000)%Z.

Definition msPerDay : Z := 86400000.

Definition Day (t : Z) : Z := (t / msPerDay)%Z.

Definition DaysInYear (y : Z) : Z :=
  (if (y mod 4 =? 0) && (negb (y mod 100 =? 0) || (y mod 400 =? 0))
   then 366 else 365)%Z.

Definition DayFromYear (y : Z) : Z :=
  (365 * (y - 1970) + (y - 1969) / 4 - (y - 1901) / 100 + (y - 1601) / 400)%Z.

(** YearFromTime(t), the largest [y] with [DayFromYear y <= Day t]: the
    year of the mean calendar, corrected by one where needed. *)
Definition YearFromTime (t : Z) : Z :=
  (let y := 1970 + (400 * Day t) / 146097 in
   if Day t <? DayFromYear y then y - 1
   else if DayFromYear (y + 1) <=? Day t then y + 1
   else y)%Z.

Definition InLeapYear (t : Z) : Z :=
  (if DaysInYear (YearFromTime t) =? 366 then 1 else 0)%Z.

Definition DayWithinYear (t : Z) : Z :=
  (Day t - DayFromYear (YearFromTime t))%Z.

(** MonthFromTime(t), from 0 for January. *)
Definition MonthFromTime (t : Z) : Z :=
  (let d := DayWithinYear t in
   let leap := InLeapYear t in
   if d <? 31 then 0
   else if d <? 59 + leap then 1
   else if d <? 90 + leap then 2
   else if d <? 120 + leap then 3
   else if d <? 151 + leap then 4
   else if d <? 181 + leap then 5
   else if d <? 212 + leap then 6
   else if d <? 243 + leap then 7
   else if d <? 273 + leap then 8
   else if d <? 304 + leap then 9
   else if d <? 334 + leap then 10
   else 11)%Z.

(** DateFromTime(t), the day of the month from 1. *)
Definition DateFromTime (t : Z) : Z :=
  (let d := DayWithinYear t in
   let leap := InLeapYear t in
   let m := MonthFromTime t in
   if m =? 0 then d + 1
   else if m =? 1 then d - 30
   else if m =? 2 then d - 58 - leap
   else if m =? 3 then d - 89 - leap
   else if m =? 4 then d - 119 - leap
   else if m =? 5 then d - 150 - leap
   else if m =? 6 then d - 180 - leap
   else if m =? 7 then d - 211 - leap
   else if m =? 8 then d - 242 - leap
   else if m =? 9 then d - 272 - leap
   else if m =? 10 then d - 303 - leap
   else d - 333 - leap)%Z.

Definition HourFromTime (t : Z) : Z := ((t / 3600000) mod 24)%Z.
Definition MinFromTime (t : Z) : Z := ((t / 60000) mod 60)%Z.
Definition SecFromTime (t : Z) : Z := ((t / 1000) mod 60)%Z.
Definition msFromTime (t : Z) : Z := (t mod 1000)%Z.

(** The [k] decimal digits of [n], padded with zeros. *)
Fixpoint decimal (k : nat) (n : Z) : jsstring :=
  match k with
  | O => []
  | S k' => decimal k' (n / 10) ++ [Z.to_N (48 + n mod 10)]
  end.

(** The year of the Date Time String Format: four digits from 0 to 9999,
    else a sign and six digits. *)
Definition iso_year (y : Z) : jsstring :=
  (if (0 <=? y) && (y <=? 9999) then decimal 4 y
   else if y <? 0 then lit "-" ++ decimal 6 (- y)
   else lit "+" ++ decimal 6 y)%Z.

(** [new Date(t).toISOString()] for a time value [t]. *)
Definition toISOString (t : Z) : jsstring :=
  iso_year (YearFromTime t) ++ lit "-" ++
  decimal 2 (MonthFromTime t + 1) ++ lit "-" ++
  decimal 2 (DateFromTime t) ++ lit "T" ++
  decimal 2 (HourFromTime t) ++ lit ":" ++
  decimal 2 (MinFromTime t) ++ lit ":" ++
  decimal 2 (SecFromTime t) ++ lit "." ++
  decimal 3 (msFromTime t) ++ lit "Z".

End JS.

(** ** sockets/server.js: the chat relay *)

Module ChatServer.
Import JS.

(** A socket is known to the server by its object identity. *)
Definition Socket := nat.

(** [readyState] of a WebSocket. *)
Inductive ReadyState : Type := CONNECTING | OPEN | CLOSING | CLOSED.

Definition is_OPEN (r : ReadyState) : bool :=
  match r with
  | OPEN => true
  | _ => false
  end.

Definition PORT : Z := 4000.

(** What the server reads from the socket objects while one callback
    runs: the [readyState] of each socket, and whether a call of its
    [send] throws.  Both belong to the transport library, not to the
    server. *)
Record Sockets : Type := {
  readyState : Socket -> ReadyState;
  send_throws : Socket -> bool
}.

(** Lines written by [console.log]. *)
Inductive LogLine : Type :=
| Client_connected (total : nat)
| Received (msg : jsstring)
| Client_disconnected (total : nat).

(** The state of the server process: the module-level [clients] set, the
    console, and the record of the [client.send(msg)] calls that
    returned, oldest first. *)
Record Server : Type := {
  clients : list Socket;
  console : list LogLine;
  sent : list (Socket * jsstring)
}.

Definition initial : Server :=
  {| clients := []; console := []; sent := [] |}.

Definition console_log (l : LogLine) (st : Server) : Server :=
  {| clients := clients st; console := console st ++ [l]; sent := sent st |}.

Definition record_send (c : Socket) (msg : jsstring) (st : Server) : Server :=
  {| clients := clients st; console := console st;
     sent := sent st ++ [(c, msg)] |}.

(** What socket [r] was sent, oldest first. *)
Definition inbox (r : Socket) (st : Server) : list jsstring :=
  map snd (filter (fun e => Nat.eqb (fst e) r) (sent st)).

Section Handlers.
(** The ['message'] event hands over a buffer; the handler relays its
    [toString()]. *)
Variable Buffer : Type.
Variable toString : Buffer -> jsstring.

(** [wss.on('connection', (socket) => ...)], lines 9-11.  The two
    [socket.on] registrations are what makes [Message] and [Close]
    events of this socket reach [on_message] and [on_close]. *)
Definition on_connection (socket : Socket) (st : Server) : Server :=
  let st1 :=
    {| clients := set_add Nat.eqb socket (clients st);
       console := console st; sent := sent st |} in
  console_log (Client_connected (set_size (clients st1))) st1.

(** The guard of line 19:
    [client !== socket && client.readyState === client.OPEN]. *)
Definition eligible (w : Sockets) (socket client : Socket) : bool :=
  negb (Nat.eqb client socket) && is_OPEN (readyState w client).

(** The loop [for (const client of clients)], lines 18-22, over the
    members still to visit.  There is no [try]: an exception of
    [client.send] leaves the loop and the handler. *)
Fixpoint broadcast (w : Sockets) (socket : Socket) (msg : jsstring)
    (todo : list Socket) (st : Server) : Completion Server :=
  match todo with
  | [] => Normal st
  | client :: todo' =>
      if eligible w socket client
      then
        if send_throws w client then Throw st
        else broadcast w socket msg todo' (record_send client msg st)
      else broadcast w socket msg todo' st
  end.

(** [socket.on('message', (data) => ...)], lines 13-23. *)
Definition on_message (w : Sockets) (socket : Socket) (data : Buffer)
    (st : Server) : Completion Server :=
  let msg := toString data in
  let st1 := console_log (Received msg) st in
  broadcast w socket msg (clients st1) st1.

(** [socket.on('close', () => ...)], lines 25-28. *)
Definition on_close (socket : Socket) (st : Server) : Server :=
  let st1 :=
    {| clients := set_delete Nat.eqb socket (clients st);
       console := console st; sent := sent st |} in
  console_log (Client_disconnected (set_size (clients st1))) st1.

(** The events the process reacts to, each a run of one callback. *)
Inductive Event : Type :=
| Connection (socket : Socket)
| Message (socket : Socket) (data : Buffer)
| Close (socket : Socket).

Definition handle (w : Sockets) (e : Event) (st : Server)
    : Completion Server :=
  match e with
  | Connection s => Normal (on_connection s st)
  | Message s data => on_message w s data st
  | Close s => Normal (on_close s st)
  end.

(** The event loop: callbacks run one after the other, each to its
    end, each under the socket states of its moment.  An exception
    that leaves a callback is uncaught and ends the process. *)
Fixpoint run (tr : list (Sockets * Event)) (st : Server)
    : Completion Server :=
  match tr with
  | [] => Normal st
  | (w, e) :: tr' =>
      match handle w e st with
      | Normal st' => run tr' st'
      | Throw st' => Throw st'
      end
  end.

(** The members one broadcast hands the message to: those that pass
    the guard, in iteration order, up to the first whose [send]
    throws. *)
Fixpoint served (w : Sockets) (socket : Socket) (todo : list Socket)
    : list Socket :=
  match todo with
  | [] => []
  | client :: todo' =>
      if eligible w socket client
      then if send_throws w client then []
           else client :: served w socket todo'
      else served w socket todo'
  end.

(** No [send] the broadcast would call throws. *)
Definition sends_succeed (w : Sockets) (socket : Socket)
    (members : list Socket) : Prop :=
  forall c, In c members -> eligible w socket c = true ->
            send_throws w c = false.

(** What [r] has been sent when the relay, started afresh, has handled
    (as far as it got) the events of [tr]. *)
Definition inbox_after (tr : list (Sockets * Event)) (r : Socket)
    : list jsstring :=
  inbox r (state_of (run tr initial)).

Definition is_lifecycle (e : Event) : bool :=
  match e with
  | Message _ _ => false
  | _ => true
  end.

(** The membership the specification asks for: the connections for which
    a connect event has fired and no close event has fired since. *)
Definition connected_not_closed (evs : list Event) (s : Socket) : Prop :=
  exists before after,
    evs = before ++ Connection s :: after /\ ~ In (Close s) after.

End Handlers.

Arguments Connection {Buffer} socket.
Arguments Message {Buffer} socket data.
Arguments Close {Buffer} socket.
Arguments on_message {Buffer} toString w socket data st.
Arguments handle {Buffer} toString w e st.
Arguments run {Buffer} toString tr st.
Arguments inbox_after {Buffer} toString tr r.
Arguments is_lifecycle {Buffer} e.
Arguments connected_not_closed {Buffer} evs s.

End ChatServer.

(** ** sockets/user2.js: the chat client *)

Module ChatClient.
Import JS.

(** The label of the template literal of line 10. *)
Definition label : jsstring := lit "user2: ".

(** The callback handed to [createInput], lines 8-11, on the frames handed
    to [ws.send] so far. *)
Definition on_line (line : jsstring) (frames : list jsstring)
    : list jsstring :=
  if Nat.eqb (List.length (trim line)) 0 then frames
  else frames ++ [label ++ line].

(** Modelled from the spec: [readline.js] is missing.  The line input
    source yields one text line at a time; [createInput(prompt, onLine)]
    calls [onLine] on each, in order. *)
Definition createInput (onLine : jsstring -> list jsstring -> list jsstring)
    (lines : list jsstring) (frames : list jsstring) : list jsstring :=
  fold_left (fun acc line => onLine line acc) lines frames.

(** A line is blank when it is empty or holds white space only. *)
Definition blank (line : jsstring) : bool := forallb is_white_space line.

End ChatClient.

(** ** SSE/server/server.js: the event source *)

Module SSEServer.
Import JS.

(** A response object, known by its identity. *)
Definition Response := nat.

Inductive Color : Type := red | blue | green.

(** What the process does to the outside, oldest first. *)
Inductive Effect : Type :=
| console_log (c : Color) (text : jsstring)
| setHeader (res : Response) (name value : jsstring)
| write (res : Response) (chunk : jsstring).

(** A timer made by [setInterval]: the response its callback closes over,
    and its delay in milliseconds. *)
Record Interval : Type := {
  target : Response;
  delay : Z
}.

(** The process: the intervals that are set, in the order they were set,
    the effects so far, and the responses whose client has gone away. *)
Record Server : Type := {
  intervals : list Interval;
  effects : list Effect;
  disconnected : list Response
}.

Definition emit (e : list Effect) (st : Server) : Server :=
  {| intervals := intervals st; effects := effects st ++ e;
     disconnected := disconnected st |}.

(** Lines 5 and 18-20: the module body and the [listen] callback. *)
Definition initial : Server :=
  {| intervals := [];
     effects := [console_log red (lit "Hello from fetch SSE");
                 console_log green
                   (lit "SSE Server running at http://localhost:3000")];
     disconnected := [] |}.

(** The object literal of line 14, at clock reading [now]. *)
Definition payload (now : Z) : json :=
  JObject [(lit "msg", JString (lit "Hello from fetch SSE"));
           (lit "time", JString (toISOString now))].

(** The text of the object of line 14 when its time reads [iso]. *)
Definition payload_text (iso : jsstring) : jsstring :=
  (123 :: 34 :: lit "msg" ++ 34 :: 58 :: 34 :: lit "Hello from fetch SSE" ++
   34 :: 44 :: 34 :: lit "time" ++ 34 :: 58 :: 34 :: iso ++ [34; 125])%N.

(** The template literal of line 14. *)
Definition event_text (now : Z) : jsstring :=
  lit "data: " ++ JSON_stringify (payload now) ++ [10; 10]%N.

(** The callback of [setInterval], lines 12-15, when the clock reads
    [now]. *)
Definition interval_callback (res : Response) (now : Z) (st : Server)
    : Server :=
  emit [console_log blue (lit "Sending message to client");
        write res (event_text now)] st.

(** [app.get('/events', (req, res) => ...)], lines 7-16.  The handle
    [setInterval] returns is dropped. *)
Definition get_events (res : Response) (st : Server) : Server :=
  let st1 :=
    emit [setHeader res (lit "Content-Type") (lit "text/event-stream");
          setHeader res (lit "Cache-Control") (lit "no-cache");
          setHeader res (lit "Connection") (lit "keep-alive")] st in
  {| intervals := intervals st1 ++ [{| target := res; delay := 5000 |}];
     effects := effects st1; disconnected := disconnected st1 |}.

(** What happens to the process: a request for [/events], interval
    number [i] coming due when the clock reads [now], the client of a
    response going away.  No code of the server runs on the last. *)
Inductive Event : Type :=
| Request (res : Response)
| Tick (i : nat) (now : Z)
| Disconnect (res : Response).

Definition handle (e : Event) (st : Server) : Server :=
  match e with
  | Request res => get_events res st
  | Tick i now =>
      match nth_error (intervals st) i with
      | Some iv => interval_callback (target iv) now st
      | None => st
      end
  | Disconnect res =>
      {| intervals := intervals st; effects := effects st;
         disconnected := res :: disconnected st |}
  end.

Definition run (tr : list Event) (st : Server) : Server :=
  fold_left (fun s e => handle e s) tr st.

(** The responses of the requests of [tr], in order. *)
Fixpoint requests (tr : list Event) : list Response :=
  match tr with
  | [] => []
  | Request res :: tr' => res :: requests tr'
  | _ :: tr' => requests tr'
  end.

(** The chunks written to [res], oldest first. *)
Fixpoint written (res : Response) (es : list Effect) : list jsstring :=
  match es with
  | [] => []
  | write r chunk :: es' =>
      if Nat.eqb r res then chunk :: written res es' else written res es'
  | _ :: es' => written res es'
  end.

(** *** The Date Time String Format, read back *)

(** [k] digits, as a number. *)
Fixpoint read_digits (k : nat) (acc : Z) (s : jsstring)
    : option (Z * jsstring) :=
  match k with
  | O => Some (acc, s)
  | S k' =>
      match s with
      | [] => None
      | c :: r =>
          if is_digit c then read_digits k' (10 * acc + (Z.of_N c - 48))%Z r
          else None
      end
  end.

(** [k] digits of a number from [lo] to [hi], then the text [sep]. *)
Definition field (k : nat) (lo hi : Z) (sep : jsstring) (s : jsstring)
    : option jsstring :=
  match read_digits k 0 s with
  | Some (n, r) =>
      if (lo <=? n)%Z && (n <=? hi)%Z && starts_with sep r
      then Some (skipn (List.length sep) r)
      else None
  | None => None
  end.

Definition then_field (k : nat) (lo hi : Z) (sep : jsstring)
    (s : option jsstring) : option jsstring :=
  match s with
  | Some r => field k lo hi sep r
  | None => None
  end.

(** An ISO 8601 instant in UTC as [toISOString] writes them:
    [YYYY-MM-DDTHH:mm:ss.sssZ], the year also as a sign and six digits. *)
Definition is_ISO_8601 (s : jsstring) : bool :=
  let year :=
    match s with
    | [] => None
    | c :: r =>
        if ((c =? 43) || (c =? 45))%N then field 6 0 999999 (lit "-") r
        else field 4 0 9999 (lit "-") s
    end in
  match then_field 3 0 999 (lit "Z")
          (then_field 2 0 59 (lit ".")
             (then_field 2 0 59 (lit ":")
                (then_field 2 0 23 (lit ":")
                   (then_field 2 1 31 (lit "T")
                      (then_field 2 1 12 (lit "-") year))))) with
  | Some [] => true
  | _ => false
  end.

End SSEServer.

(** ** SSE/client/client.js: the streaming client *)

Module SSEClient.
Import JS.

(** Lines written by [console.log]. *)
Inductive LogLine : Type :=
| Received_chunk (chunk : jsstring)
| Parsed_Data (value : json)
| All_headers.

(** Line 21: [chunk.replace('data: ', '').trim()]. *)
Definition data_of (chunk : jsstring) : jsstring :=
  trim (replace chunk (lit "data: ") []).

(** The body of the [while] loop of [startSSE], lines 16-24, on a chunk
    already decoded to text. *)
Definition on_chunk (chunk : jsstring) (console : list LogLine)
    : Completion (list LogLine) :=
  let console1 := console ++ [Received_chunk chunk] in
  if includes chunk (lit "data:") then
    let data := data_of chunk in
    match JSON_parse data with
    | Parsed value _ => Normal (console1 ++ [Parsed_Data value; All_headers])
    | SyntaxError => Throw console1
    | OutOfFuel => Throw console1
    end
  else Normal console1.

(** [startSSE] over the chunks [reader.read()] delivers until [done].  An
    exception leaves the loop and the function. *)
Fixpoint startSSE (chunks : list jsstring) (console : list LogLine)
    : Completion (list LogLine) :=
  match chunks with
  | [] => Normal console
  | chunk :: chunks' =>
      match on_chunk chunk console with
      | Normal console' => startSSE chunks' console'
      | Throw console' => Throw console'
      end
  end.

End SSEClient.

(** ** A stream used to exercise the two SSE programs *)

Module Stream.
Import JS.

(** Two clock readings, 5000 ms apart: 2025-12-23T15:22:29.986Z and the
    next tick. *)
Definition t1 : Z := 1766503349986.
Definition t2 : Z := 1766503354986.

Definition event1 : jsstring := SSEServer.event_text t1.
Definition event2 : jsstring := SSEServer.event_text t2.

(** Two events in one chunk. *)
Definition coalesced : jsstring := event1 ++ event2.

(** One event in two chunks, cut after 20 code units. *)
Definition first_half : jsstring := firstn 20 event1.
Definition second_half : jsstring := skipn 20 event1.

(** An event whose message holds the text [data: ], and the rest of it
    when the chunk before ended inside the message. *)
Definition quoting_event : jsstring :=
  lit "data: " ++
  JSON_stringify (JObject [(lit "msg", JString (lit "see data: here"))]) ++
  [10; 10]%N.
Definition quoting_tail : jsstring := skipn 18 quoting_event.

End Stream.

(** ** A chat session used to exercise the relay *)

Module Session.
Import JS ChatServer.

(** Text frames: the buffer of a text frame decodes to its text. *)
Definition text (data : jsstring) : jsstring := data.

Definition hello : jsstring := lit "hello".
Definition m1 : jsstring := lit "m1".
Definition m2 : jsstring := lit "m2".

(** Every socket open, every [send] returning. *)
Definition healthy : Sockets :=
  {| readyState := fun _ => OPEN; send_throws := fun _ => false |}.

(** As [healthy], but socket [c] is CLOSING. *)
Definition closing (c : Socket) : Sockets :=
  {| readyState := fun x => if Nat.eqb x c then CLOSING else OPEN;
     send_throws := fun _ => false |}.

(** Sockets 1, 2 and 3 (A, B and C) connect in that order. *)
Definition three_connect : list (Sockets * Event jsstring) :=
  [(healthy, Connection 1); (healthy, Connection 2); (healthy, Connection 3)].

Definition three_connected : Server :=
  state_of (run text three_connect initial).
End Session.


(** ** Reading the console and the trace of the relay *)

Module ChatLog.
Import JS ChatServer.

(** The total of the latest [Client connected] or [Client disconnected]
    line, if there is one. *)
Definition last_total (console : list LogLine) : option nat :=
  fold_left (fun acc l =>
               match l with
               | Client_connected n => Some n
               | Client_disconnected n => Some n
               | Received _ => acc
               end) console None.

(** The texts of the [Received:] lines, oldest first. *)
Fixpoint received (console : list LogLine) : list jsstring :=
  match console with
  | [] => []
  | Received msg :: console' => msg :: received console'
  | _ :: console' => received console'
  end.

(** The buffers of the ['message'] events of a trace, in order. *)
Fixpoint messages {Buffer : Type} (tr : list (Sockets * Event Buffer))
    : list Buffer :=
  match tr with
  | [] => []
  | (_, Message _ data) :: tr' => data :: messages tr'
  | _ :: tr' => messages tr'
  end.

(** The events a run got to: those whose callback returned, and the one
    whose callback threw, if one did. *)
Fixpoint handled {Buffer : Type} (toString : Buffer -> jsstring)
    (tr : list (Sockets * Event Buffer)) (st : Server)
    : list (Sockets * Event Buffer) :=
  match tr with
  | [] => []
  | (w, e) :: tr' =>
      match handle toString w e st with
      | Normal st' => (w, e) :: handled toString tr' st'
      | Throw _ => [(w, e)]
      end
  end.

(** The total on the console is up to date. *)
Definition total_current (st : Server) : Prop :=
  match last_total (console st) with
  | Some n => n = List.length (clients st)
  | None => clients st = []
  end.

End ChatLog.

(** ** sockets/user2.js: what the client shows *)

Module ChatPeer.
Import JS.




End ChatPeer.

(** ** Reading the trace of the event source *)

Module SSEStream.
Import JS SSEServer.

(** The three headers of lines 8-10 are among the effects [es], for the
    response [res]. *)
Definition headers_set (res : Response) (es : list Effect) : Prop :=
  In (setHeader res (lit "Content-Type") (lit "text/event-stream")) es /\
  In (setHeader res (lit "Cache-Control") (lit "no-cache")) es /\
  In (setHeader res (lit "Connection") (lit "keep-alive")) es.

(** Every interval and every write so far has its headers before it. *)
Definition headers_first (st : Server) : Prop :=
  (forall iv, In iv (intervals st) -> headers_set (target iv) (effects st)) /\
  (forall pre res chunk post,
      effects st = pre ++ write res chunk :: post -> headers_set res pre).

(** The clock readings at which an interval of [res] comes due in [tr],
    in order, when the intervals [ivs] are set before [tr]. *)
Fixpoint emissions (res : Response) (tr : list Event) (ivs : list Interval)
    : list Z :=
  match tr with
  | [] => []
  | Request r :: tr' =>
      emissions res tr' (ivs ++ [{| target := r; delay := 5000 |}])
  | Tick i now :: tr' =>
      match nth_error ivs i with
      | Some iv =>
          if Nat.eqb (target iv) res then now :: emissions res tr' ivs
          else emissions res tr' ivs
      | None => emissions res tr' ivs
      end
  | Disconnect _ :: tr' => emissions res tr' ivs
  end.

(** The characters [toISOString] writes: digits, signs, and the marks
    of the format. *)
Definition stamp_char (c : N) : bool :=
  (is_digit c || (c =? 43) || (c =? 45) || (c =? 46) || (c =? 58) ||
   (c =? 84) || (c =? 90))%N.

(** The text of the object up to the opening quotation mark of the
    time, and the part of every event before its time. *)
Definition object_head : jsstring :=
  (123 :: 34 :: lit "msg" ++ 34 :: 58 :: 34 :: lit "Hello from fetch SSE" ++
   34 :: 44 :: 34 :: lit "time" ++ [34; 58; 34])%N.

Definition event_head : jsstring := lit "data: " ++ object_head.

(** [JSON.parse] is reached on the chunk and throws. *)
Definition throws_on (chunk : jsstring) : bool :=
  includes chunk (lit "data:") &&
  match JSON_parse (SSEClient.data_of chunk) with
  | SyntaxError => true
  | _ => false
  end.

(** What the client logs for a chunk that is the event of [now]. *)
Definition logged (now : Z) : list SSEClient.LogLine :=
  [SSEClient.Received_chunk (event_text now);
   SSEClient.Parsed_Data (payload now); SSEClient.All_headers].

End SSEStream.

(** ** [Buffer.toString()] of Node *)

Module Node.
Import JS.

(** A [Buffer]: a sequence of bytes. *)
Definition Buffer := list N.

(** U+FFFD, written for what cannot be decoded. *)
Definition REPLACEMENT : N := 65533.

(** The UTF-16 code units of a code point. *)
Definition utf16 (cp : N) : jsstring :=
  (if cp <? 65536 then [cp]
   else [55296 + (cp - 65536) / 1024; 56320 + (cp - 65536) mod 1024])%N.

(** What a byte begins when no sequence is open: a code unit of its own,
    or a sequence of [needed] more bytes, the next of them from [lo] to
    [hi]. *)
Inductive Lead : Type :=
| Emit (unit : N)
| Expect (cp : N) (needed : nat) (lo hi : N).

Definition lead (b : N) : Lead :=
  (if b <=? 127 then Emit b
   else if (194 <=? b) && (b <=? 223) then Expect (b - 192) 1 128 191
   else if (224 <=? b) && (b <=? 239)
        then Expect (b - 224) 2 (if b =? 224 then 160 else 128)
                                (if b =? 237 then 159 else 191)
   else if (240 <=? b) && (b <=? 244)
        then Expect (b - 240) 3 (if b =? 240 then 144 else 128)
                                (if b =? 244 then 143 else 191)
   else Emit REPLACEMENT)%N.

(** The UTF-8 decoder of [buf.toString()]: [cp] is the code point so
    far, [needed] the number of bytes its sequence still lacks, [lo] and
    [hi] the bounds of the next byte.  A byte that cannot continue the open
    sequence ends it with U+FFFD and is read again as a first byte; so does
    the end of the buffer. *)
Fixpoint decode (bs : list N) (cp : N) (needed : nat) (lo hi : N)
    : jsstring :=
  match bs with
  | [] => match needed with
          | O => []
          | S _ => [REPLACEMENT]
          end
  | b :: bs' =>
      let restart :=
        match lead b with
        | Emit u => u :: decode bs' 0%N 0 128%N 191%N
        | Expect cp' n' lo' hi' => decode bs' cp' n' lo' hi'
        end in
      match needed with
      | O => restart
      | S n =>
          if ((lo <=? b) && (b <=? hi))%N then
            let cp' := (cp * 64 + (b - 128))%N in
            match n with
            | O => utf16 cp' ++ decode bs' 0%N 0 128%N 191%N
            | S _ => decode bs' cp' n 128%N 191%N
            end
          else REPLACEMENT :: restart
      end
  end.

(** [data.toString()] of a Buffer. *)
Definition toString (data : Buffer) : jsstring := decode data 0%N 0 128%N 191%N.

End Node.

(** ** The sockets of the [ws] package *)

Module Ws.
Import JS ChatServer.

(** The UTF-8 bytes of a code point. *)
Definition utf8 (cp : N) : list N :=
  (if cp <? 128 then [cp]
   else if cp <? 2048 then [192 + cp / 64; 128 + cp mod 64]
   else if cp <? 65536
        then [224 + cp / 4096; 128 + (cp / 64) mod 64; 128 + cp mod 64]
   else [240 + cp / 262144; 128 + (cp / 4096) mod 64;
         128 + (cp / 64) mod 64; 128 + cp mod 64])%N.

(** The payload of the text frame [send] makes of a string: its UTF-8
    bytes, a surrogate without its partner written as U+FFFD. *)
Fixpoint text_frame (s : jsstring) : list N :=
  match s with
  | [] => []
  | u :: s' =>
      if is_high_surrogate u then
        match s' with
        | [] => utf8 Node.REPLACEMENT
        | l :: s'' =>
            if is_low_surrogate l
            then utf8 (65536 + (u - 55296) * 1024 + (l - 56320))%N ++
                 text_frame s''
            else utf8 Node.REPLACEMENT ++ text_frame s'
        end
      else if is_low_surrogate u then utf8 Node.REPLACEMENT ++ text_frame s'
      else utf8 u ++ text_frame s'
  end.

Definition continuation (b : N) : bool := ((128 <=? b) && (b <=? 191))%N.

(** Well-formed UTF-8 (the byte sequences of table 3-7 of the Unicode
    standard), as the payload of every text frame is. *)
Fixpoint well_formed (bs : list N) : bool :=
  match bs with
  | [] => true
  | b1 :: r1 =>
      (if b1 <=? 127 then well_formed r1
       else if (194 <=? b1) && (b1 <=? 223) then
         match r1 with
         | b2 :: r2 => continuation b2 && well_formed r2
         | _ => false
         end
       else if (224 <=? b1) && (b1 <=? 239) then
         match r1 with
         | b2 :: b3 :: r3 =>
             ((if b1 =? 224 then 160 else 128) <=? b2) &&
             (b2 <=? (if b1 =? 237 then 159 else 191)) &&
             continuation b3 && well_formed r3
         | _ => false
         end
       else if (240 <=? b1) && (b1 <=? 244) then
         match r1 with
         | b2 :: b3 :: b4 :: r4 =>
             ((if b1 =? 240 then 144 else 128) <=? b2) &&
             (b2 <=? (if b1 =? 244 then 143 else 191)) &&
             continuation b3 && continuation b4 && well_formed r4
         | _ => false
         end
       else false)%N
  end.

(** The socket objects of the package when their states are [rs].
    [send] throws when [readyState] is CONNECTING; in every other state
    it returns, whatever becomes of the data: an error of the connection
    goes to the callback that was given to [send], if one was. *)
Definition sockets (rs : Socket -> ReadyState) : Sockets :=
  {| readyState := rs;
     send_throws := fun c => match rs c with
                             | CONNECTING => true
                             | _ => false
                             end |}.

(** What becomes of the data of a [send] that returned: written to the
    peer, or lost because the connection failed under it.  Line 20 gives
    [send] no callback, so the relay is told of neither. *)
Inductive Fate : Type := Written | Lost.

(** What reaches the peer of [r] of what the relay handed to [send]
    between the states [st] and [st']. *)
Definition reaches (fate : Socket -> Fate) (r : Socket) (st st' : Server)
    : list jsstring :=
  match fate r with
  | Written => skipn (List.length (inbox r st)) (inbox r st')
  | Lost => []
  end.

End Ws.

(** ** A chat session over the sockets of [ws] *)

Module Wire.
Import JS ChatServer.

(** Every socket OPEN. *)
Definition all_open : Socket -> ReadyState := fun _ => OPEN.

(** The payload of a binary frame that is not UTF-8: the byte [ff], then
    the bytes of [hi]. *)
Definition binary : Node.Buffer := [255; 104; 105]%N.

(** The payload of the text frame of [hello]. *)
Definition hello : Node.Buffer := Ws.text_frame (lit "hello").

(** The connection of [c] fails under what is sent to it; the others
    carry what they are sent. *)
Definition lost (c : Socket) : Socket -> Ws.Fate :=
  fun x => if Nat.eqb x c then Ws.Lost else Ws.Written.

(** Sockets 1, 2 and 3 (A, B and C) connect in that order. *)
Definition three_connect : list (Sockets * Event Node.Buffer) :=
  [(Ws.sockets all_open, Connection 1); (Ws.sockets all_open, Connection 2);
   (Ws.sockets all_open, Connection 3)].

Definition three_connected : Server :=
  state_of (run Node.toString three_connect initial).

End Wire.
(* ===================================================================== *)
(** * Part II. Properties                                                 *)
(* ===================================================================== *)

(** ** The [Set] of sockets *)

Section SetFacts.
Import JS.

Lemma set_has_In (x : nat) (s : list nat) :
  set_has Nat.eqb x s = true <-> In x s.
Proof.
  induction s as [|y s IH]; simpl.
  - split; [discriminate | tauto].
  - rewrite orb_true_iff, Nat.eqb_eq, IH. tauto.
Qed.

Lemma set_has_not_In (x : nat) (s : list nat) :
  set_has Nat.eqb x s = false <-> ~ In x s.
Proof.
  rewrite <- set_has_In. destruct (set_has Nat.eqb x s); split; congruence.
Qed.

Lemma set_add_In (x y : nat) (s : list nat) :
  In y (set_add Nat.eqb x s) <-> y = x \/ In y s.
Proof.
  unfold set_add. destruct (set_has Nat.eqb x s) eqn:E.
  - apply set_has_In in E. split; [tauto | intros [->|H]; assumption].
  - rewrite in_app_iff; simpl. intuition congruence.
Qed.

Lemma set_delete_In (x y : nat) (s : list nat) :
  In y (set_delete Nat.eqb x s) <-> In y s /\ y <> x.
Proof.
  induction s as [|z s IH]; simpl; [tauto|].
  destruct (Nat.eqb z x) eqn:E.
  - apply Nat.eqb_eq in E. subst z. rewrite IH. intuition congruence.
  - apply Nat.eqb_neq in E. simpl. rewrite IH. intuition congruence.
Qed.

Lemma set_add_NoDup (x : nat) (s : list nat) :
  NoDup s -> NoDup (set_add Nat.eqb x s).
Proof.
  intros H. unfold set_add. destruct (set_has Nat.eqb x s) eqn:E; [assumption|].
  apply set_has_not_In in E.
  apply NoDup_app; [assumption | repeat constructor; simpl; tauto |].
  intros a Ha [<-|[]]. contradiction.
Qed.

Lemma set_delete_NoDup (x : nat) (s : list nat) :
  NoDup s -> NoDup (set_delete Nat.eqb x s).
Proof.
  induction 1 as [|y s Hy Hs IH]; simpl; [constructor|].
  destruct (Nat.eqb y x); [assumption|].
  constructor; [|assumption]. rewrite set_delete_In. tauto.
Qed.

Lemma set_delete_absent (x : nat) (s : list nat) :
  ~ In x s -> set_delete Nat.eqb x s = s.
Proof.
  induction s as [|y s IH]; simpl; [reflexivity|]. intros H.
  destruct (Nat.eqb y x) eqn:E.
  - apply Nat.eqb_eq in E. tauto.
  - f_equal. apply IH. tauto.
Qed.

Lemma NoDup_app_disjoint (l1 l2 : list nat) (a : nat) :
  NoDup (l1 ++ l2) -> In a l1 -> ~ In a l2.
Proof.
  induction l1 as [|x l1 IH]; simpl; [tauto|].
  intros H [->|Hin] H2.
  - inversion H as [|? ? Hx _]; subst. apply Hx, in_or_app. auto.
  - inversion H; subst. exact (IH ltac:(assumption) Hin H2).
Qed.

End SetFacts.

(** ** The broadcast loop of [sockets/server.js] *)

Section Broadcast.
Import JS ChatServer.
Context {Buffer : Type} (toString : Buffer -> jsstring).

Lemma inbox_app (r : Socket) (st : Server) (cs : list Socket)
    (msg : jsstring) (st' : Server) :
  sent st' = sent st ++ map (fun c => (c, msg)) cs ->
  inbox r st' = inbox r st ++ repeat msg (count_occ Nat.eq_dec cs r).
Proof.
  unfold inbox. intros ->. rewrite filter_app, map_app. f_equal.
  induction cs as [|c cs IH]; simpl; [reflexivity|].
  destruct (Nat.eqb_spec c r) as [->|Hne].
  - simpl. destruct (Nat.eq_dec r r); [|congruence]. simpl. f_equal. exact IH.
  - destruct (Nat.eq_dec c r); [congruence|]. exact IH.
Qed.

Lemma broadcast_state (w : Sockets) (s : Socket) (msg : jsstring)
    (todo : list Socket) (st : Server) :
  let st' := state_of (broadcast w s msg todo st) in
  clients st' = clients st /\ console st' = console st /\
  sent st' = sent st ++ map (fun c => (c, msg)) (served w s todo).
Proof.
  revert st. induction todo as [|c todo IH]; intros st; simpl.
  - rewrite app_nil_r. auto.
  - destruct (eligible w s c).
    + destruct (send_throws w c); simpl.
      * rewrite app_nil_r. auto.
      * destruct (IH (record_send c msg st)) as (H1 & H2 & H3).
        rewrite H1, H2, H3. simpl. rewrite <- app_assoc. auto.
    + apply IH.
Qed.

Lemma served_all (w : Sockets) (s : Socket) (todo : list Socket) :
  sends_succeed w s todo -> served w s todo = filter (eligible w s) todo.
Proof.
  induction todo as [|c todo IH]; intros H; simpl; [reflexivity|].
  assert (Ht : sends_succeed w s todo)
    by (intros x Hx; apply H; right; exact Hx).
  destruct (eligible w s c) eqn:E.
  - rewrite (H c (or_introl eq_refl) E). f_equal. auto.
  - auto.
Qed.

Lemma broadcast_returns (w : Sockets) (s : Socket) (msg : jsstring)
    (todo : list Socket) (st : Server) :
  sends_succeed w s todo -> returns (broadcast w s msg todo st) = true.
Proof.
  revert st. induction todo as [|c todo IH]; intros st H; simpl; [reflexivity|].
  assert (Ht : sends_succeed w s todo)
    by (intros x Hx; apply H; right; exact Hx).
  destruct (eligible w s c) eqn:E; [|auto].
  rewrite (H c (or_introl eq_refl) E). auto.
Qed.

Lemma served_sub (w : Sockets) (s : Socket) (todo : list Socket) (c : Socket) :
  In c (served w s todo) -> In c todo /\ eligible w s c = true.
Proof.
  induction todo as [|x todo IH]; simpl; [tauto|].
  destruct (eligible w s x) eqn:E.
  - destruct (send_throws w x); simpl; [tauto|].
    intros [<-|H]; [tauto|]. apply IH in H. tauto.
  - intros H. apply IH in H. tauto.
Qed.

Lemma served_count (w : Sockets) (s : Socket) (todo : list Socket) (c : Socket) :
  count_occ Nat.eq_dec (served w s todo) c <= count_occ Nat.eq_dec todo c.
Proof.
  induction todo as [|x todo IH]; simpl; [lia|].
  destruct (eligible w s x).
  - destruct (send_throws w x); simpl; destruct (Nat.eq_dec x c); lia.
  - destruct (Nat.eq_dec x c); lia.
Qed.

Lemma count_filter_NoDup (f : nat -> bool) (l : list nat) (c : nat) :
  NoDup l -> In c l -> f c = true ->
  count_occ Nat.eq_dec (filter f l) c = 1.
Proof.
  intros Hnd Hin Hf.
  apply NoDup_count_occ'; [apply NoDup_filter; exact Hnd|].
  apply filter_In. tauto.
Qed.

Lemma count_not_served (w : Sockets) (s : Socket) (todo : list Socket)
    (c : Socket) :
  eligible w s c = false -> count_occ Nat.eq_dec (served w s todo) c = 0.
Proof.
  intros H. apply count_occ_not_In. intros Hin. apply served_sub in Hin.
  destruct Hin as [_ Hin]. congruence.
Qed.

End Broadcast.

(** ** Runs of the chat relay *)

Section Runs.
Import JS ChatServer.
Context {Buffer : Type} (toString : Buffer -> jsstring).

Lemma handle_NoDup (w : Sockets) (e : Event Buffer) (st : Server) :
  NoDup (clients st) -> NoDup (clients (state_of (handle toString w e st))).
Proof.
  intros H. destruct e as [s|s data|s]; simpl.
  - apply set_add_NoDup, H.
  - unfold on_message.
    destruct (broadcast_state w s (toString data)
                (clients (console_log (Received (toString data)) st))
                (console_log (Received (toString data)) st)) as (H1 & _).
    rewrite H1. exact H.
  - apply set_delete_NoDup, H.
Qed.

Lemma run_NoDup (tr : list (Sockets * Event Buffer)) (st : Server) :
  NoDup (clients st) -> NoDup (clients (state_of (run toString tr st))).
Proof.
  revert st. induction tr as [|[w e] tr IH]; intros st H; simpl; [exact H|].
  pose proof (handle_NoDup w e st H) as Hh.
  destruct (handle toString w e st); simpl in *; auto.
Qed.

Lemma reachable_NoDup (tr : list (Sockets * Event Buffer)) (st : Server) :
  run toString tr initial = Normal st -> NoDup (clients st).
Proof.
  intros H. pose proof (run_NoDup tr initial (NoDup_nil _)) as Hn.
  rewrite H in Hn. exact Hn.
Qed.

Lemma run_app (tr1 tr2 : list (Sockets * Event Buffer)) (st : Server) :
  run toString (tr1 ++ tr2) st =
  match run toString tr1 st with
  | Normal st' => run toString tr2 st'
  | Throw st' => Throw st'
  end.
Proof.
  revert st. induction tr1 as [|[w e] tr1 IH]; intros st; simpl; [reflexivity|].
  destruct (handle toString w e st); auto.
Qed.

(** What one ['message'] callback does, whether it returns or not. *)
Lemma on_message_state (w : Sockets) (s : Socket) (data : Buffer)
    (st : Server) :
  let st' := state_of (on_message toString w s data st) in
  clients st' = clients st /\
  console st' = console st ++ [Received (toString data)] /\
  sent st' = sent st ++
             map (fun c => (c, toString data)) (served w s (clients st)).
Proof.
  unfold on_message.
  destruct (broadcast_state w s (toString data)
              (clients (console_log (Received (toString data)) st))
              (console_log (Received (toString data)) st)) as (H1 & H2 & H3).
  simpl in *. auto.
Qed.

Lemma on_message_inbox (w : Sockets) (s : Socket) (data : Buffer)
    (st : Server) (r : Socket) :
  inbox r (state_of (on_message toString w s data st)) =
  inbox r st ++
  repeat (toString data) (count_occ Nat.eq_dec (served w s (clients st)) r).
Proof.
  apply inbox_app. apply on_message_state.
Qed.

Lemma on_message_returns (w : Sockets) (s : Socket) (data : Buffer)
    (st : Server) :
  sends_succeed w s (clients st) ->
  exists st', on_message toString w s data st = Normal st'.
Proof.
  intros H. unfold on_message.
  pose proof (broadcast_returns w s (toString data) (clients st)
                (console_log (Received (toString data)) st) H) as Hr.
  simpl in Hr |- *.
  destruct (broadcast w s (toString data) (clients st) _) as [st'|st'];
    [eexists; reflexivity | discriminate].
Qed.

End Runs.

(** ** Text frames survive [toString()] *)

Section Utf8RoundTrip.
Import JS Node Ws.
Open Scope N_scope.

Lemma two_bytes (b1 b2 : N) :
  194 <= b1 <= 223 -> 128 <= b2 <= 191 ->
  let cp := (b1 - 192) * 64 + (b2 - 128) in
  128 <= cp < 2048 /\ 192 + cp / 64 = b1 /\ 128 + cp mod 64 = b2.
Proof.
  intros H1 H2 cp. subst cp. zify. Z.to_euclidean_division_equations. lia.
Qed.

Lemma three_bytes (b1 b2 b3 : N) :
  224 <= b1 <= 239 ->
  (if b1 =? 224 then 160 else 128) <= b2 ->
  b2 <= (if b1 =? 237 then 159 else 191) ->
  128 <= b3 <= 191 ->
  let cp := ((b1 - 224) * 64 + (b2 - 128)) * 64 + (b3 - 128) in
  2048 <= cp < 65536 /\ (cp < 55296 \/ 57343 < cp) /\
  224 + cp / 4096 = b1 /\ 128 + (cp / 64) mod 64 = b2 /\
  128 + cp mod 64 = b3.
Proof.
  intros H1 H2 H3 H4 cp. subst cp.
  destruct (N.eqb_spec b1 224); destruct (N.eqb_spec b1 237);
    zify; Z.to_euclidean_division_equations; lia.
Qed.

Lemma four_bytes (b1 b2 b3 b4 : N) :
  240 <= b1 <= 244 ->
  (if b1 =? 240 then 144 else 128) <= b2 ->
  b2 <= (if b1 =? 244 then 143 else 191) ->
  128 <= b3 <= 191 -> 128 <= b4 <= 191 ->
  let cp := (((b1 - 240) * 64 + (b2 - 128)) * 64 + (b3 - 128)) * 64 + (b4 - 128) in
  65536 <= cp < 1114112 /\
  240 + cp / 262144 = b1 /\ 128 + (cp / 4096) mod 64 = b2 /\
  128 + (cp / 64) mod 64 = b3 /\ 128 + cp mod 64 = b4.
Proof.
  intros H1 H2 H3 H4 H5 cp. subst cp.
  destruct (N.eqb_spec b1 240); destruct (N.eqb_spec b1 244);
    zify; Z.to_euclidean_division_equations; lia.
Qed.

Lemma surrogate_pair (cp : N) :
  65536 <= cp < 1114112 ->
  let hi := 55296 + (cp - 65536) / 1024 in
  let lo := 56320 + (cp - 65536) mod 1024 in
  55296 <= hi <= 56319 /\ 56320 <= lo <= 57343 /\
  65536 + (hi - 55296) * 1024 + (lo - 56320) = cp.
Proof.
  intros H hi lo. subst hi lo. zify. Z.to_euclidean_division_equations. lia.
Qed.

Lemma decode_lead (b : N) (bs : list N) :
  decode (b :: bs) 0 0 128 191 =
  match lead b with
  | Emit u => u :: decode bs 0 0 128 191
  | Expect cp n lo hi => decode bs cp n lo hi
  end.
Proof. reflexivity. Qed.

Lemma decode_last (b cp lo hi : N) (bs : list N) :
  lo <= b <= hi ->
  decode (b :: bs) cp 1 lo hi =
  utf16 (cp * 64 + (b - 128)) ++ decode bs 0 0 128 191.
Proof.
  intros [H1 H2]. cbn [decode].
  apply N.leb_le in H1, H2. rewrite H1, H2. reflexivity.
Qed.

Lemma decode_more (b cp lo hi : N) (n : nat) (bs : list N) :
  lo <= b <= hi ->
  decode (b :: bs) cp (S (S n)) lo hi =
  decode bs (cp * 64 + (b - 128)) (S n) 128 191.
Proof.
  intros [H1 H2]. cbn [decode].
  apply N.leb_le in H1, H2. rewrite H1, H2. reflexivity.
Qed.

Lemma text_frame_unit (u : N) (s : jsstring) :
  u < 55296 \/ 57343 < u ->
  text_frame (u :: s) = utf8 u ++ text_frame s.
Proof.
  intros H. cbn [text_frame]. unfold is_high_surrogate, is_low_surrogate.
  destruct (N.leb_spec 55296 u); destruct (N.leb_spec u 56319);
    destruct (N.leb_spec 56320 u); destruct (N.leb_spec u 57343);
    cbn [andb]; try reflexivity; lia.
Qed.

Lemma text_frame_pair (hi lo : N) (s : jsstring) :
  55296 <= hi <= 56319 -> 56320 <= lo <= 57343 ->
  text_frame (hi :: lo :: s) =
  utf8 (65536 + (hi - 55296) * 1024 + (lo - 56320)) ++ text_frame s.
Proof.
  intros [H1 H2] [H3 H4]. cbn [text_frame].
  unfold is_high_surrogate, is_low_surrogate.
  apply N.leb_le in H1, H2, H3, H4. rewrite H1, H2, H3, H4. reflexivity.
Qed.

Lemma continuation_range (b : N) : continuation b = true -> 128 <= b <= 191.
Proof.
  unfold continuation. intros H. apply andb_prop in H. destruct H as [H1 H2].
  apply N.leb_le in H1, H2. lia.
Qed.

Lemma round_trip_le (n : nat) (bs : list N) :
  (List.length bs <= n)%nat -> well_formed bs = true ->
  text_frame (decode bs 0 0 128 191) = bs.
Proof.
  revert bs. induction n as [|n IH]; intros bs Hn Hw.
  - destruct bs; [reflexivity | simpl in Hn; lia].
  - destruct bs as [|b1 r1]; [reflexivity|]. simpl in Hn.
    rewrite decode_lead. cbn [well_formed] in Hw. unfold lead.
    destruct (N.leb_spec b1 127) as [Ha|Ha].
    { rewrite text_frame_unit by lia. unfold utf8.
      destruct (N.ltb_spec b1 128); [|lia]. cbn [app]. f_equal.
      apply IH; [lia | exact Hw]. }
    destruct ((194 <=? b1) && (b1 <=? 223)) eqn:E2.
    { apply andb_prop in E2. destruct E2 as [L1 L2]. apply N.leb_le in L1, L2.
      destruct r1 as [|b2 r2]; [discriminate|].
      apply andb_prop in Hw. destruct Hw as [K2 Hw].
      apply continuation_range in K2.
      rewrite decode_last by lia.
      destruct (two_bytes b1 b2) as (Hr & E1 & E3); [lia | lia |].
      unfold utf16. destruct (N.ltb_spec ((b1 - 192) * 64 + (b2 - 128)) 65536);
        [|lia]. cbn [app]. rewrite text_frame_unit by lia. unfold utf8.
      destruct (N.ltb_spec ((b1 - 192) * 64 + (b2 - 128)) 128); [lia|].
      destruct (N.ltb_spec ((b1 - 192) * 64 + (b2 - 128)) 2048); [|lia].
      rewrite E1, E3. cbn [app]. do 2 f_equal.
      apply IH; [simpl in Hn; lia | exact Hw]. }
    destruct ((224 <=? b1) && (b1 <=? 239)) eqn:E3.
    { apply andb_prop in E3. destruct E3 as [L1 L2]. apply N.leb_le in L1, L2.
      destruct r1 as [|b2 [|b3 r3]]; try discriminate.
      apply andb_prop in Hw. destruct Hw as [Hw W].
      apply andb_prop in Hw. destruct Hw as [Hw K3].
      apply andb_prop in Hw. destruct Hw as [Lo Hi].
      apply N.leb_le in Lo, Hi. apply continuation_range in K3.
      rewrite decode_more by lia. rewrite decode_last by lia.
      destruct (three_bytes b1 b2 b3) as (Hr & Hs & F1 & F2 & F3); try lia.
      set (cp := ((b1 - 224) * 64 + (b2 - 128)) * 64 + (b3 - 128)) in *.
      unfold utf16. destruct (N.ltb_spec cp 65536); [|lia]. cbn [app].
      rewrite text_frame_unit by lia. unfold utf8.
      destruct (N.ltb_spec cp 128); [lia|].
      destruct (N.ltb_spec cp 2048); [lia|].
      destruct (N.ltb_spec cp 65536); [|lia].
      rewrite F1, F2, F3. cbn [app]. do 3 f_equal.
      apply IH; [simpl in Hn; lia | exact W]. }
    destruct ((240 <=? b1) && (b1 <=? 244)) eqn:E4; [|discriminate].
    apply andb_prop in E4. destruct E4 as [L1 L2]. apply N.leb_le in L1, L2.
    destruct r1 as [|b2 [|b3 [|b4 r4]]]; try discriminate.
    apply andb_prop in Hw. destruct Hw as [Hw W].
    apply andb_prop in Hw. destruct Hw as [Hw K4].
    apply andb_prop in Hw. destruct Hw as [Hw K3].
    apply andb_prop in Hw. destruct Hw as [Lo Hi].
    apply N.leb_le in Lo, Hi. apply continuation_range in K3, K4.
    rewrite decode_more by lia. rewrite decode_more by lia.
    rewrite decode_last by lia.
    destruct (four_bytes b1 b2 b3 b4) as (Hr & F1 & F2 & F3 & F4); try lia.
    set (cp := (((b1 - 240) * 64 + (b2 - 128)) * 64 + (b3 - 128)) * 64 +
               (b4 - 128)) in *.
    destruct (surrogate_pair cp Hr) as (Hh & Hl & Hcp).
    unfold utf16. destruct (N.ltb_spec cp 65536); [lia|]. cbn [app].
    rewrite text_frame_pair by assumption. rewrite Hcp. unfold utf8.
    destruct (N.ltb_spec cp 128); [lia|].
    destruct (N.ltb_spec cp 2048); [lia|].
    destruct (N.ltb_spec cp 65536); [lia|].
    rewrite F1, F2, F3, F4. cbn [app]. do 4 f_equal.
    apply IH; [simpl in Hn; lia | exact W].
Qed.

(** A buffer of well-formed UTF-8 is the payload of the text frame of its
    [toString()]. *)
Lemma text_frame_toString (data : Buffer) :
  well_formed data = true -> text_frame (toString data) = data.
Proof. apply (round_trip_le (List.length data)). lia. Qed.

End Utf8RoundTrip.

(** ** The relay over the sockets of [ws] *)

Section OverWs.
Import JS ChatServer.
Context {Buffer : Type} (toString : Buffer -> jsstring).

Lemma sockets_sends_succeed (rs : Socket -> ReadyState) (s : Socket)
    (members : list Socket) :
  sends_succeed (Ws.sockets rs) s members.
Proof.
  intros c _ He. unfold eligible in He. apply andb_prop in He.
  destruct He as [_ Ho]. simpl in *. destruct (rs c); try discriminate.
  reflexivity.
Qed.

Lemma eligible_OPEN (rs : Socket -> ReadyState) (s c : Socket) :
  c <> s -> rs c = OPEN -> eligible (Ws.sockets rs) s c = true.
Proof.
  intros Hc Ho. unfold eligible. simpl. rewrite Ho.
  apply Nat.eqb_neq in Hc. rewrite Hc. reflexivity.
Qed.

Lemma skipn_past {A : Type} (l l' : list A) :
  skipn (List.length l) (l ++ l') = l'.
Proof. induction l as [|x l IH]; simpl; auto. Qed.

(** The ['message'] callback over sockets of [ws]: no [send] of the loop
    throws, so it returns, with one [send] for every member that passes the
    guard. *)
Lemma on_message_over_ws (tr : list (Sockets * Event Buffer)) (st : Server)
    (rs : Socket -> ReadyState) (s : Socket) (data : Buffer) :
  run toString tr initial = Normal st ->
  exists st',
    on_message toString (Ws.sockets rs) s data st = Normal st' /\
    clients st' = clients st /\
    console st' = console st ++ [Received (toString data)] /\
    sent st' = sent st ++
               map (fun c => (c, toString data))
                   (filter (eligible (Ws.sockets rs) s) (clients st)) /\
    (forall r, r <> s -> In r (clients st) -> rs r = OPEN ->
               inbox r st' = inbox r st ++ [toString data]) /\
    inbox s st' = inbox s st.
Proof.
  intros Hrun.
  pose proof (reachable_NoDup toString tr st Hrun) as Hnd.
  pose proof (sockets_sends_succeed rs s (clients st)) as Hok.
  destruct (on_message_returns toString (Ws.sockets rs) s data st Hok)
    as [st' Hst'].
  exists st'. split; [exact Hst'|].
  pose proof (on_message_state toString (Ws.sockets rs) s data st)
    as (H1 & H2 & H3).
  pose proof (on_message_inbox toString (Ws.sockets rs) s data st) as Hin.
  rewrite Hst' in H1, H2, H3, Hin. simpl in H1, H2, H3, Hin.
  rewrite served_all in H3, Hin by exact Hok.
  split; [exact H1|]. split; [exact H2|]. split; [exact H3|]. split.
  - intros r Hr Hm Ho. rewrite Hin, count_filter_NoDup; auto.
    apply eligible_OPEN; assumption.
  - rewrite Hin. rewrite (proj1 (count_occ_not_In Nat.eq_dec _ s)).
    + apply app_nil_r.
    + rewrite filter_In. unfold eligible. rewrite Nat.eqb_refl.
      simpl. intros [_ H]. discriminate.
Qed.

End OverWs.

(** ** C1: exactly-once delivery to the other open members *)

Section ExactlyOnce.
Import JS ChatServer.

(** C1, as the code has it.  In any state the relay reaches, when [A]'s
    ['message'] callback runs on the payload [data] while [B] and [C] are
    members of [clients] with [readyState] OPEN, the callback returns, [B]
    and [C] are each sent [data.toString()] exactly once, and [A] is sent
    nothing.  What they are sent is the payload itself whenever the
    payload is well-formed UTF-8, as the payload of every text frame is:
    the text frame [send] makes of [data.toString()] then carries the bytes
    of [data]. *)
Theorem relay_delivers_decoded_once
    (tr : list (Sockets * Event Node.Buffer)) (st : Server)
    (rs : Socket -> ReadyState) (A B C : Socket) (data : Node.Buffer) :
  run Node.toString tr initial = Normal st ->
  In B (clients st) -> In C (clients st) ->
  rs B = OPEN -> rs C = OPEN ->
  B <> A -> C <> A ->
  exists st',
    on_message Node.toString (Ws.sockets rs) A data st = Normal st' /\
    inbox B st' = inbox B st ++ [Node.toString data] /\
    inbox C st' = inbox C st ++ [Node.toString data] /\
    inbox A st' = inbox A st /\
    (Ws.well_formed data = true ->
     Ws.text_frame (Node.toString data) = data).
Proof.
  intros Hrun HB HC HoB HoC HBA HCA.
  destruct (on_message_over_ws Node.toString tr st rs A data Hrun)
    as (st' & Hst' & _ & _ & _ & Hothers & Hself).
  exists st'. split; [exact Hst'|].
  split; [apply Hothers; assumption|].
  split; [apply Hothers; assumption|].
  split; [exact Hself|].
  apply text_frame_toString.
Qed.

End ExactlyOnce.

Lemma relay_delivers_decoded_once_witness :
  exists st',
    ChatServer.on_message Node.toString (Ws.sockets Wire.all_open) 1
      Wire.hello Wire.three_connected = JS.Normal st' /\
    ChatServer.inbox 2 st' =
      ChatServer.inbox 2 Wire.three_connected ++ [Node.toString Wire.hello] /\
    ChatServer.inbox 3 st' =
      ChatServer.inbox 3 Wire.three_connected ++ [Node.toString Wire.hello] /\
    ChatServer.inbox 1 st' = ChatServer.inbox 1 Wire.three_connected /\
    (Ws.well_formed Wire.hello = true ->
     Ws.text_frame (Node.toString Wire.hello) = Wire.hello).
Proof.
  apply (relay_delivers_decoded_once Wire.three_connect Wire.three_connected
           Wire.all_open 1 2 3 Wire.hello).
  - reflexivity.
  - simpl; tauto.
  - simpl; tauto.
  - reflexivity.
  - reflexivity.
  - discriminate.
  - discriminate.
Defined.

(** C1 fails as stated: A, B and C are connected and open, and A sends a
    binary frame with the payload [ff 68 69], which is not UTF-8.  B and C
    are each sent one text, U+FFFD followed by [hi]; the text frame of it
    carries [ef bf bd 68 69], not the payload A sent. *)
Lemma payload_unchanged_counterexample :
  In 2 (ChatServer.clients Wire.three_connected) /\
  In 3 (ChatServer.clients Wire.three_connected) /\
  Wire.all_open 1 = ChatServer.OPEN /\
  Wire.all_open 2 = ChatServer.OPEN /\
  Wire.all_open 3 = ChatServer.OPEN /\
  exists st',
    ChatServer.on_message Node.toString (Ws.sockets Wire.all_open) 1
      Wire.binary Wire.three_connected = JS.Normal st' /\
    ChatServer.inbox 2 st' = [65533%N :: JS.lit "hi"] /\
    ChatServer.inbox 3 st' = [65533%N :: JS.lit "hi"] /\
    Ws.text_frame (65533%N :: JS.lit "hi") = [239; 191; 189; 104; 105]%N /\
    Ws.text_frame (65533%N :: JS.lit "hi") <> Wire.binary.
Proof.
  split; [simpl; tauto|]. split; [simpl; tauto|].
  split; [reflexivity|]. split; [reflexivity|]. split; [reflexivity|].
  eexists. split; [vm_compute; reflexivity|].
  split; [reflexivity|]. split; [reflexivity|]. split; [reflexivity|].
  discriminate.
Qed.

(** ** C2 and C6: the membership of the registry *)

Section Membership.
Import JS ChatServer.
Context {Buffer : Type} (toString : Buffer -> jsstring).

Lemma connected_not_closed_nil (s : Socket) :
  ~ connected_not_closed (@nil (Event Buffer)) s.
Proof.
  intros (before & after & H & _). destruct before; discriminate.
Qed.

Lemma connected_not_closed_cons (e : Event Buffer) (evs : list (Event Buffer))
    (s : Socket) :
  connected_not_closed (e :: evs) s <->
  (e = Connection s /\ ~ In (Close s) evs) \/ connected_not_closed evs s.
Proof.
  split.
  - intros (before & after & H & Hn). destruct before as [|b before].
    + simpl in H. injection H as -> ->. left. auto.
    + simpl in H. injection H as <- ->. right.
      exists before, after. auto.
  - intros [[-> Hn]|(before & after & -> & Hn)].
    + exists [], evs. auto.
    + exists (e :: before), after. auto.
Qed.

Lemma run_membership (tr : list (Sockets * Event Buffer)) (st st' : Server) :
  run toString tr st = Normal st' ->
  forall s, In s (clients st') <->
            connected_not_closed (map snd tr) s \/
            (In s (clients st) /\ ~ In (Close s) (map snd tr)).
Proof.
  revert st. induction tr as [|[w e] tr IH]; intros st H s; simpl in *.
  - injection H as <-. pose proof (connected_not_closed_nil s). tauto.
  - rewrite connected_not_closed_cons.
    destruct e as [x|x data|x]; simpl in H.
    + rewrite (IH _ H s). simpl. rewrite set_add_In.
      split.
      * intros [Hc|[[->|Hin] Hn]]; auto.
        right. split; [exact Hin|]. intros [Heq|Hcl]; [discriminate|tauto].
      * intros [[[Heq Hn]|Hc]|[Hin Hn]]; auto.
        -- injection Heq as ->. auto.
        -- right. split; [auto|]. tauto.
    + pose proof (on_message_state toString w x data st) as (Hcl & _).
      destruct (on_message toString w x data st) as [st1|st1];
        [|discriminate].
      simpl in Hcl. rewrite (IH _ H s), Hcl.
      split.
      * intros [Hc|[Hin Hn]]; auto.
        right. split; [exact Hin|]. intros [Heq|Hc]; [discriminate|tauto].
      * intros [[[Heq _]|Hc]|[Hin Hn]]; auto; [discriminate|].
        right. tauto.
    + rewrite (IH _ H s). simpl. rewrite set_delete_In.
      split.
      * intros [Hc|[[Hin Hne] Hn]]; auto.
        right. split; [exact Hin|]. intros [Heq|Hc]; [|tauto].
        injection Heq as ->. congruence.
      * intros [[[Heq _]|Hc]|[Hin Hn]]; auto; [discriminate|].
        right. split; [split; [exact Hin|]|tauto].
        intros ->. tauto.
Qed.

Lemma run_lifecycle_returns (tr : list (Sockets * Event Buffer)) (st : Server) :
  Forall (fun we => is_lifecycle (snd we) = true) tr ->
  exists st', run toString tr st = Normal st'.
Proof.
  revert st. induction tr as [|[w e] tr IH]; intros st H; simpl.
  - eexists; reflexivity.
  - inversion H as [|? ? He Htr]; subst.
    destruct e as [x|x data|x]; simpl in *; [apply IH|discriminate|apply IH];
      exact Htr.
Qed.

(** C2.  After any sequence of connect and close events the relay is
    running and the members of [clients] are exactly the connections for
    which a connect event has fired and no close event has fired since. *)
Theorem registry_tracks_connections (tr : list (Sockets * Event Buffer)) :
  Forall (fun we => is_lifecycle (snd we) = true) tr ->
  exists st,
    run toString tr initial = Normal st /\
    forall s, In s (clients st) <-> connected_not_closed (map snd tr) s.
Proof.
  intros H. destruct (run_lifecycle_returns tr initial H) as [st Hst].
  exists st. split; [exact Hst|]. intros s.
  rewrite (run_membership tr initial st Hst s). simpl. tauto.
Qed.

(** C6.  [clients.add] of a socket that is already a member leaves
    [clients] as it was, adding twice is adding once, and in every state
    the relay reaches no socket occurs twice in [clients]. *)
Theorem registry_add_idempotent :
  (forall (socket : Socket) (st : Server),
      In socket (clients st) ->
      clients (on_connection socket st) = clients st) /\
  (forall (socket : Socket) (st : Server),
      clients (on_connection socket (on_connection socket st)) =
      clients (on_connection socket st)) /\
  (forall tr : list (Sockets * Event Buffer),
      NoDup (clients (state_of (run toString tr initial)))).
Proof.
  split; [|split].
  - intros socket st H. simpl. unfold set_add.
    apply set_has_In in H. rewrite H. reflexivity.
  - intros socket st. simpl. unfold set_add at 1.
    replace (set_has Nat.eqb socket (set_add Nat.eqb socket (clients st)))
      with true; [reflexivity|].
    symmetry. apply set_has_In, set_add_In. auto.
  - intros tr. apply run_NoDup. constructor.
Qed.

End Membership.

Lemma registry_tracks_connections_witness :
  exists st,
    ChatServer.run Session.text
      (Session.three_connect ++ [(Session.healthy, ChatServer.Close 2)])
      ChatServer.initial = JS.Normal st /\
    forall s, In s (ChatServer.clients st) <->
              ChatServer.connected_not_closed
                (map snd (Session.three_connect ++
                          [(Session.healthy, ChatServer.Close 2)])) s.
Proof.
  apply (registry_tracks_connections Session.text).
  repeat constructor.
Defined.

Lemma registry_add_idempotent_witness :
  ChatServer.clients (ChatServer.on_connection 2 Session.three_connected) =
  ChatServer.clients Session.three_connected.
Proof.
  apply (proj1 (registry_add_idempotent Session.text) 2 Session.three_connected).
  simpl; tauto.
Defined.

(** ** C4: members that are not open *)

Section Failures.
Import JS ChatServer.
Context {Buffer : Type} (toString : Buffer -> jsstring).

Lemma eligible_not_OPEN (w : Sockets) (s c : Socket) :
  readyState w c <> OPEN -> eligible w s c = false.
Proof.
  intros H. unfold eligible. destruct (readyState w c); try congruence;
    apply andb_false_r.
Qed.

Lemma broadcast_skip (w : Sockets) (s : Socket) (msg : jsstring)
    (pre post : list Socket) (c : Socket) (st : Server) :
  eligible w s c = false ->
  broadcast w s msg (pre ++ c :: post) st = broadcast w s msg (pre ++ post) st.
Proof.
  intros Hc. revert st. induction pre as [|x pre IH]; intros st; simpl.
  - rewrite Hc. reflexivity.
  - destruct (eligible w s x); [destruct (send_throws w x)|]; auto.
Qed.

Lemma served_deleted (w : Sockets) (s c : Socket) (members : list Socket) :
  ~ In c (served w s (set_delete Nat.eqb c members)).
Proof.
  intros H. apply served_sub in H. destruct H as [H _].
  apply set_delete_In in H. tauto.
Qed.

(** C4.  A member [B] of [clients] whose [readyState] is not OPEN is
    skipped without a trace: the ['message'] callback of [A] is the loop
    over the other members alone, [B] is sent nothing, and the callback
    returns when the sends to the other members do, whatever a [send] on
    [B] would have done.  Once the ['close'] callback of [B] has run, a
    message of [A] sends [B] nothing either, whatever the socket states. *)
Theorem not_open_members_skipped (st : Server) (w : Sockets)
    (A B : Socket) (data : Buffer) :
  readyState w B <> OPEN ->
  (forall pre post, clients st = pre ++ B :: post ->
     on_message toString w A data st =
     broadcast w A (toString data) (pre ++ post)
       (console_log (Received (toString data)) st)) /\
  inbox B (state_of (on_message toString w A data st)) = inbox B st /\
  (forall pre post, clients st = pre ++ B :: post ->
     sends_succeed w A (pre ++ post) ->
     exists st', on_message toString w A data st = Normal st') /\
  (forall w', inbox B (state_of (on_message toString w' A data (on_close B st)))
              = inbox B (on_close B st)).
Proof.
  intros HB. pose proof (eligible_not_OPEN w A B HB) as He.
  split; [|split; [|split]].
  - intros pre post Hcl. unfold on_message. simpl. rewrite Hcl.
    apply broadcast_skip. exact He.
  - rewrite on_message_inbox, count_not_served by exact He. apply app_nil_r.
  - intros pre post Hcl Hok. apply on_message_returns. rewrite Hcl.
    intros c Hc Hec. apply Hok; [|exact Hec].
    apply in_app_or in Hc. apply in_or_app.
    destruct Hc as [Hc|[<-|Hc]]; auto. congruence.
  - intros w'. rewrite on_message_inbox. simpl.
    rewrite (proj1 (count_occ_not_In Nat.eq_dec _ B)); [apply app_nil_r|].
    apply served_deleted.
Qed.

End Failures.

(** ** C3: a send that fails *)

Section LostSends.
Import JS ChatServer.

(** C3, as the code has it.  In any state the relay reaches, when [A]'s
    ['message'] callback runs while the connection of an open member [F]
    fails under what is sent to it, the failure is neither caught nor
    logged: [send] on [F] is called once and returns, and the console
    gains the [Received:] line and nothing else.  The failure is not
    escalated: the callback returns, [A] is sent nothing, and the relay
    goes on.  It does not prevent delivery: every other open member whose
    connection carries what it is sent, before or after [F] in [clients],
    is reached by exactly one copy of the payload's [toString()]. *)
Theorem send_failure_goes_unnoticed
    (tr : list (Sockets * Event Node.Buffer)) (st : Server)
    (rs : Socket -> ReadyState) (fate : Socket -> Ws.Fate)
    (A F : Socket) (data : Node.Buffer) :
  run Node.toString tr initial = Normal st ->
  In F (clients st) -> F <> A -> rs F = OPEN -> fate F = Ws.Lost ->
  exists st',
    on_message Node.toString (Ws.sockets rs) A data st = Normal st' /\
    run Node.toString (tr ++ [(Ws.sockets rs, Message A data)]) initial =
      Normal st' /\
    clients st' = clients st /\
    console st' = console st ++ [Received (Node.toString data)] /\
    inbox F st' = inbox F st ++ [Node.toString data] /\
    Ws.reaches fate F st st' = [] /\
    (forall r, In r (clients st) -> r <> A -> rs r = OPEN ->
               fate r = Ws.Written ->
               Ws.reaches fate r st st' = [Node.toString data]) /\
    inbox A st' = inbox A st.
Proof.
  intros Hrun HF HFA HoF HlF.
  destruct (on_message_over_ws Node.toString tr st rs A data Hrun)
    as (st' & Hst' & Hcl & Hco & _ & Hothers & Hself).
  exists st'. split; [exact Hst'|]. split.
  { rewrite run_app, Hrun. simpl. rewrite Hst'. reflexivity. }
  split; [exact Hcl|]. split; [exact Hco|].
  split; [apply Hothers; assumption|]. split.
  { unfold Ws.reaches. rewrite HlF. reflexivity. }
  split; [|exact Hself].
  intros r Hr HrA Hor Hwr. unfold Ws.reaches. rewrite Hwr.
  rewrite (Hothers r HrA Hr Hor). apply skipn_past.
Qed.

End LostSends.

(** C3 fails as stated: A, B and C are connected and open, and the
    connection of B fails under what A's message makes the relay send it.
    Nothing is caught and nothing is logged: [send] on B returns, the
    callback returns, and the console holds the three connection lines and
    the [Received:] line, as it would had nothing failed.  C is reached
    by the message. *)
Lemma send_failure_logged_counterexample :
  Wire.lost 2 2 = Ws.Lost /\
  ChatServer.eligible (Ws.sockets Wire.all_open) 1 2 = true /\
  ChatServer.on_message Node.toString (Ws.sockets Wire.all_open) 1
    Wire.hello Wire.three_connected =
  JS.Normal
    {| ChatServer.clients := [1; 2; 3];
       ChatServer.console :=
         [ChatServer.Client_connected 1; ChatServer.Client_connected 2;
          ChatServer.Client_connected 3;
          ChatServer.Received (JS.lit "hello")];
       ChatServer.sent := [(2, JS.lit "hello"); (3, JS.lit "hello")] |} /\
  Ws.reaches (Wire.lost 2) 2 Wire.three_connected
    (JS.state_of
       (ChatServer.on_message Node.toString (Ws.sockets Wire.all_open) 1
          Wire.hello Wire.three_connected)) = [] /\
  Ws.reaches (Wire.lost 2) 3 Wire.three_connected
    (JS.state_of
       (ChatServer.on_message Node.toString (Ws.sockets Wire.all_open) 1
          Wire.hello Wire.three_connected)) = [JS.lit "hello"].
Proof.
  split; [reflexivity|]. split; [reflexivity|]. split; [reflexivity|].
  split; reflexivity.
Qed.

Lemma send_failure_goes_unnoticed_witness :
  exists st',
    ChatServer.on_message Node.toString (Ws.sockets Wire.all_open) 1
      Wire.hello Wire.three_connected = JS.Normal st' /\
    ChatServer.run Node.toString
      (Wire.three_connect ++
       [(Ws.sockets Wire.all_open, ChatServer.Message 1 Wire.hello)])
      ChatServer.initial = JS.Normal st' /\
    ChatServer.clients st' = ChatServer.clients Wire.three_connected /\
    ChatServer.console st' =
      ChatServer.console Wire.three_connected ++
      [ChatServer.Received (Node.toString Wire.hello)] /\
    ChatServer.inbox 2 st' =
      ChatServer.inbox 2 Wire.three_connected ++ [Node.toString Wire.hello] /\
    Ws.reaches (Wire.lost 2) 2 Wire.three_connected st' = [] /\
    (forall r, In r (ChatServer.clients Wire.three_connected) -> r <> 1 ->
               Wire.all_open r = ChatServer.OPEN ->
               Wire.lost 2 r = Ws.Written ->
               Ws.reaches (Wire.lost 2) r Wire.three_connected st' =
               [Node.toString Wire.hello]) /\
    ChatServer.inbox 1 st' = ChatServer.inbox 1 Wire.three_connected.
Proof.
  apply (send_failure_goes_unnoticed Wire.three_connect Wire.three_connected
           Wire.all_open (Wire.lost 2) 1 2 Wire.hello).
  - reflexivity.
  - simpl; tauto.
  - discriminate.
  - reflexivity.
  - reflexivity.
Defined.

Lemma not_open_members_skipped_witness :
  ChatServer.on_message Session.text (Session.closing 2) 1 Session.hello
    Session.three_connected =
  ChatServer.broadcast (Session.closing 2) 1 (Session.text Session.hello)
    ([1] ++ [3])
    (ChatServer.console_log (ChatServer.Received (Session.text Session.hello))
       Session.three_connected) /\
  ChatServer.inbox 2
    (JS.state_of
       (ChatServer.on_message Session.text (Session.closing 2) 1 Session.hello
          Session.three_connected)) =
  ChatServer.inbox 2 Session.three_connected /\
  (exists st',
     ChatServer.on_message Session.text (Session.closing 2) 1 Session.hello
       Session.three_connected = JS.Normal st').
Proof.
  destruct (not_open_members_skipped Session.text Session.three_connected
              (Session.closing 2) 1 2 Session.hello)
    as (H1 & H2 & H3 & _).
  - discriminate.
  - split; [apply (H1 [1] [3]); reflexivity|]. split; [exact H2|].
    apply (H3 [1] [3]); [reflexivity|]. intros c _ _. reflexivity.
Defined.

(** ** C5: messages of one sender reach every recipient in order *)

Section Ordering.
Import JS ChatServer.
Context {Buffer : Type} (toString : Buffer -> jsstring).

Lemma handle_inbox_grows (w : Sockets) (e : Event Buffer) (st : Server)
    (r : Socket) :
  exists d, inbox r (state_of (handle toString w e st)) = inbox r st ++ d.
Proof.
  destruct e as [x|x data|x]; simpl.
  - exists []. unfold inbox. simpl. symmetry. apply app_nil_r.
  - eexists. apply on_message_inbox.
  - exists []. unfold inbox. simpl. symmetry. apply app_nil_r.
Qed.

Lemma run_inbox_grows (tr : list (Sockets * Event Buffer)) (st : Server)
    (r : Socket) :
  exists d, inbox r (state_of (run toString tr st)) = inbox r st ++ d.
Proof.
  revert st. induction tr as [|[w e] tr IH]; intros st; simpl.
  - exists []. symmetry. apply app_nil_r.
  - destruct (handle_inbox_grows w e st r) as [d Hd].
    destruct (handle toString w e st) as [st1|st1]; simpl in *.
    + destruct (IH st1) as [d' Hd']. exists (d ++ d').
      rewrite Hd', Hd. symmetry. apply app_assoc.
    + exists d. exact Hd.
Qed.

(** Handling further events only appends to an inbox. *)
Lemma inbox_after_app (tr tr' : list (Sockets * Event Buffer)) (r : Socket) :
  exists d, inbox_after toString (tr ++ tr') r = inbox_after toString tr r ++ d.
Proof.
  unfold inbox_after. rewrite run_app.
  destruct (run toString tr initial) as [st|st]; simpl.
  - apply run_inbox_grows.
  - exists []. symmetry. apply app_nil_r.
Qed.

(** Handling one message appends at most one copy of it. *)
Lemma inbox_after_message (tr : list (Sockets * Event Buffer)) (w : Sockets)
    (s : Socket) (data : Buffer) (r : Socket) :
  exists d, inbox_after toString (tr ++ [(w, Message s data)]) r = inbox_after toString tr r ++ d
            /\ (d = [] \/ d = [toString data]).
Proof.
  unfold inbox_after. rewrite run_app.
  pose proof (run_NoDup toString tr initial (NoDup_nil _)) as Hnd.
  destruct (run toString tr initial) as [st|st]; simpl in *.
  - pose proof (on_message_inbox toString w s data st r) as Hin.
    pose proof (served_count w s (clients st) r) as Hle.
    assert (Hone : count_occ Nat.eq_dec (clients st) r <= 1)
      by (apply NoDup_count_occ; exact Hnd).
    eexists. split.
    + destruct (on_message toString w s data st); exact Hin.
    + destruct (count_occ Nat.eq_dec (served w s (clients st)) r)
        as [|[|n]]; simpl; auto. lia.
  - exists []. split; [symmetry; apply app_nil_r | auto].
Qed.

(** C5.  When the relay handles [d1] and later [d2] from the same sender
    [s], with any events before, between and after, each inbox is
    [pre ++ del1 ++ mid ++ del2 ++ post], where [del1] is what handling
    [d1] appended (nothing, or one copy of [d1]) and [del2] what handling
    [d2] appended: a recipient of both has [d1] before [d2].  Between
    senders the order follows the arrival at the relay, which the events
    decide: messages of A and B reach C in either order. *)
Theorem per_sender_fifo :
  (forall (tr1 tr2 tr3 : list (Sockets * Event Buffer)) (w1 w2 : Sockets)
          (s : Socket) (d1 d2 : Buffer) (r : Socket),
      let t1 := tr1 ++ [(w1, Message s d1)] in
      let t2 := t1 ++ tr2 in
      let t3 := t2 ++ [(w2, Message s d2)] in
      exists pre del1 mid del2 post,
        inbox_after toString tr1 r = pre /\
        inbox_after toString t1 r = pre ++ del1 /\
        inbox_after toString t2 r = pre ++ del1 ++ mid /\
        inbox_after toString t3 r = pre ++ del1 ++ mid ++ del2 /\
        inbox_after toString (t3 ++ tr3) r = pre ++ del1 ++ mid ++ del2 ++ post /\
        (del1 = [] \/ del1 = [toString d1]) /\
        (del2 = [] \/ del2 = [toString d2])) /\
  (forall da db : Buffer,
      let w := Session.healthy in
      let connect := [(w, Connection 1); (w, Connection 2); (w, Connection 3)] in
      inbox_after toString
        (connect ++ [(w, Message 1 da); (w, Message 2 db)]) 3 =
        [toString da; toString db] /\
      inbox_after toString
        (connect ++ [(w, Message 2 db); (w, Message 1 da)]) 3 =
        [toString db; toString da]).
Proof.
  split.
  - intros tr1 tr2 tr3 w1 w2 s d1 d2 r t1 t2 t3.
    destruct (inbox_after_message tr1 w1 s d1 r) as (del1 & H1 & Hd1).
    destruct (inbox_after_app t1 tr2 r) as (mid & H2).
    destruct (inbox_after_message t2 w2 s d2 r) as (del2 & H3 & Hd2).
    destruct (inbox_after_app t3 tr3 r) as (post & H4).
    exists (inbox_after toString tr1 r), del1, mid, del2, post.
    fold t1 in H1. fold t2 in H2. fold t3 in H3.
    rewrite H4, H3, H2, H1. rewrite <- !app_assoc. auto 10.
  - intros da db w connect. split; reflexivity.
Qed.

End Ordering.

(** ** Two sessions of the relay, run *)

Section Scenarios.
Import JS ChatServer Session.

(** A, B and C are connected; A sends [hello]. *)
Example scenario_hello :
  let st := state_of (run text (three_connect ++ [(healthy, Message 1 hello)])
                        initial) in
  inbox 1 st = [] /\ inbox 2 st = [hello] /\ inbox 3 st = [hello] /\
  clients st = [1; 2; 3].
Proof. repeat split. Qed.

(** A sends [m1], B closes, A sends [m2]. *)
Example scenario_close_between :
  let st := state_of (run text (three_connect ++
                                [(healthy, Message 1 m1); (closing 2, Close 2);
                                 (healthy, Message 1 m2)]) initial) in
  inbox 3 st = [m1; m2] /\ inbox 2 st = [m1] /\ inbox 1 st = [] /\
  clients st = [1; 3].
Proof. repeat split. Qed.

(** B is closing, its ['close'] not yet fired, when A sends [m2]. *)
Example scenario_closing :
  let st := state_of (run text (three_connect ++
                                [(healthy, Message 1 m1);
                                 (closing 2, Message 1 m2)]) initial) in
  inbox 3 st = [m1; m2] /\ inbox 2 st = [m1] /\ clients st = [1; 2; 3].
Proof. repeat split. Qed.

End Scenarios.

(** ** C7: the chat client drops blank lines *)

Section BlankLines.
Import JS ChatClient.

Lemma trimStart_nil (s : jsstring) :
  trimStart s = [] <-> forallb is_white_space s = true.
Proof.
  induction s as [|c s IH]; simpl; [tauto|].
  destruct (is_white_space c); simpl; [exact IH|].
  split; discriminate.
Qed.

Lemma trimStart_head (s : jsstring) (c : N) (s' : jsstring) :
  trimStart s = c :: s' -> is_white_space c = false.
Proof.
  induction s as [|x s IH]; simpl; [discriminate|].
  destruct (is_white_space x) eqn:E; [exact IH|].
  intros H. injection H as <- _. exact E.
Qed.

Lemma trimStart_sub (s : jsstring) (c : N) :
  In c (trimStart s) -> In c s.
Proof.
  induction s as [|x s IH]; simpl; [tauto|].
  destruct (is_white_space x); simpl; tauto.
Qed.

Lemma forallb_rev (f : N -> bool) (l : list N) :
  forallb f (rev l) = forallb f l.
Proof.
  induction l as [|x l IH]; simpl; [reflexivity|].
  rewrite forallb_app, IH. simpl. rewrite andb_true_r. apply andb_comm.
Qed.

Lemma trim_nil (s : jsstring) : trim s = [] <-> blank s = true.
Proof.
  unfold trim, trimEnd, blank. split.
  - intros H. apply (f_equal (@rev N)) in H. rewrite rev_involutive in H.
    simpl in H. apply trimStart_nil in H. rewrite forallb_rev in H.
    destruct (trimStart s) as [|c s'] eqn:E; [apply trimStart_nil, E|].
    apply trimStart_head in E. simpl in H. rewrite E in H. discriminate.
  - intros H. apply trimStart_nil in H. rewrite H. reflexivity.
Qed.

Lemma on_line_cases (line : jsstring) (frames : list jsstring) :
  on_line line frames =
  if blank line then frames else frames ++ [label ++ line].
Proof.
  unfold on_line. destruct (blank line) eqn:E.
  - apply trim_nil in E. rewrite E. reflexivity.
  - destruct (trim line) as [|c t] eqn:Et; [|reflexivity].
    apply trim_nil in Et. congruence.
Qed.

(** What [trim] keeps of a line is part of the line. *)
Lemma trim_sub (s : jsstring) (c : N) : In c (trim s) -> In c s.
Proof.
  unfold trim, trimEnd. intros H. rewrite <- in_rev in H.
  apply trimStart_sub in H. rewrite <- in_rev in H.
  apply trimStart_sub. exact H.
Qed.

Lemma createInput_frames (lines : list jsstring) (frames : list jsstring) :
  createInput on_line lines frames =
  frames ++ map (fun line => label ++ line)
                (filter (fun line => negb (blank line)) lines).
Proof.
  unfold createInput. revert frames.
  induction lines as [|l lines IH]; intros frames; simpl.
  - symmetry. apply app_nil_r.
  - rewrite IH, on_line_cases. destruct (blank l); simpl; [reflexivity|].
    rewrite <- app_assoc. reflexivity.
Qed.

Example on_line_blank : on_line (lit "   ") [] = [].
Proof. reflexivity. Qed.

Example on_line_text :
  on_line (lit " hi ") [] = [lit "user2:  hi "].
Proof. reflexivity. Qed.

(** C7.  The line callback sends nothing for a line that is empty or holds
    white space only, and sends the label [user2: ] followed by the line,
    as typed, for any other line; over the lines the input source yields,
    the frames sent are the non-blank lines, each behind that label, in
    order. *)
Theorem blank_lines_not_sent :
  (forall line frames,
      on_line line frames =
      if blank line then frames else frames ++ [lit "user2: " ++ line]) /\
  (forall lines,
      createInput on_line lines [] =
      map (fun line => lit "user2: " ++ line)
          (filter (fun line => negb (blank line)) lines)).
Proof.
  split; [exact on_line_cases|].
  intros lines. apply (createInput_frames lines []).
Qed.

End BlankLines.


(** ** [JSON.parse] decides: the fuel of [JSON_parse] is never used up *)

Section ParserFuel.
Import JS.

Lemma skip_ws_length (s : jsstring) :
  List.length (skip_ws s) <= List.length s.
Proof.
  induction s as [|c s IH]; simpl; [lia|].
  destruct (json_ws c); simpl; lia.
Qed.

Lemma skip_ws_cons (s : jsstring) (c : N) (r : jsstring) :
  skip_ws s = c :: r -> List.length r < List.length s.
Proof.
  intros H. pose proof (skip_ws_length s) as Hl. rewrite H in Hl.
  simpl in Hl. lia.
Qed.

Lemma span_digits_length (s d r : jsstring) :
  span_digits s = (d, r) -> List.length s = List.length d + List.length r.
Proof.
  revert d r. induction s as [|c s IH]; intros d r; simpl.
  - intros H. injection H as <- <-. reflexivity.
  - destruct (is_digit c).
    + destruct (span_digits s) as [d' r'] eqn:E. intros H.
      injection H as <- <-. simpl. rewrite (IH d' r' eq_refl). reflexivity.
    + intros H. injection H as <- <-. reflexivity.
Qed.

Lemma parse_int_length (s i r : jsstring) :
  parse_int s = Some (i, r) -> List.length r < List.length s.
Proof.
  destruct s as [|c s]; simpl; [discriminate|].
  destruct (c =? 48)%N.
  - intros H. injection H as <- <-. lia.
  - destruct (is_digit c); [|discriminate].
    destruct (span_digits s) as [d r'] eqn:E. intros H. injection H as <- <-.
    apply span_digits_length in E. lia.
Qed.

Lemma parse_frac_length (s f r : jsstring) :
  parse_frac s = Some (f, r) -> List.length r <= List.length s.
Proof.
  destruct s as [|c s]; simpl.
  - intros H. injection H as <- <-. simpl. lia.
  - destruct (c =? 46)%N.
    + destruct (span_digits s) as [d r'] eqn:E. apply span_digits_length in E.
      destruct d; [discriminate|]. intros H. injection H as <- <-. lia.
    + intros H. injection H as <- <-. simpl. lia.
Qed.

Lemma parse_exp_length (s e r : jsstring) :
  parse_exp s = Some (e, r) -> List.length r <= List.length s.
Proof.
  destruct s as [|c s]; simpl.
  - intros H. injection H as <- <-. simpl. lia.
  - destruct ((c =? 101) || (c =? 69))%N.
    + destruct s as [|x s1].
      * simpl. discriminate.
      * destruct ((x =? 43) || (x =? 45))%N.
        -- destruct (span_digits s1) as [d r'] eqn:E.
           apply span_digits_length in E.
           destruct d; [discriminate|]. intros H. injection H as <- <-.
           simpl. lia.
        -- destruct (span_digits (x :: s1)) as [d r'] eqn:E.
           apply span_digits_length in E.
           destruct d; [discriminate|]. intros H. injection H as <- <-.
           simpl in *. lia.
    + intros H. injection H as <- <-. simpl. lia.
Qed.

Lemma parse_number_length (s n r : jsstring) :
  parse_number s = Some (n, r) -> List.length r < List.length s.
Proof.
  unfold parse_number.
  destruct s as [|c s']; simpl.
  - discriminate.
  - destruct (c =? 45)%N.
    + destruct (parse_int s') as [[i s2]|] eqn:Ei; [|discriminate].
      apply parse_int_length in Ei.
      destruct (parse_frac s2) as [[f s3]|] eqn:Ef; [|discriminate].
      apply parse_frac_length in Ef.
      destruct (parse_exp s3) as [[e s4]|] eqn:Ee; [|discriminate].
      apply parse_exp_length in Ee. intros H. injection H as <- <-. simpl. lia.
    + destruct (parse_int (c :: s')) as [[i s2]|] eqn:Ei; [|discriminate].
      apply parse_int_length in Ei.
      destruct (parse_frac s2) as [[f s3]|] eqn:Ef; [|discriminate].
      apply parse_frac_length in Ef.
      destruct (parse_exp s3) as [[e s4]|] eqn:Ee; [|discriminate].
      apply parse_exp_length in Ee. intros H. injection H as <- <-.
      simpl in *. lia.
Qed.

Lemma cons_char_length (c : N) (p : option (jsstring * jsstring))
    (str r : jsstring) (n : nat) :
  (forall str' r', p = Some (str', r') -> List.length r' < n) ->
  cons_char c p = Some (str, r) -> List.length r < n.
Proof.
  intros Hp. destruct p as [[str' r']|]; simpl; [|discriminate].
  intros H. injection H as <- <-. exact (Hp str' r' eq_refl).
Qed.

Lemma parse_chars_length_le (n : nat) (s str r : jsstring) :
  List.length s <= n ->
  parse_chars s = Some (str, r) -> List.length r < List.length s.
Proof.
  revert s str r. induction n as [|n IH]; intros s str r Hn.
  - destruct s; [discriminate | simpl in Hn; lia].
  - destruct s as [|c s]; [discriminate|]. simpl in Hn. simpl.
    destruct (c =? 34)%N.
    { intros H. injection H as <- <-. lia. }
    destruct (c <? 32)%N; [discriminate|].
    destruct (c =? 92)%N.
    + destruct s as [|e r1]; [discriminate|].
      destruct (e =? 117)%N.
      * destruct r1 as [|h1 [|h2 [|h3 [|h4 r2]]]]; try discriminate.
        destruct (hex4 h1 h2 h3 h4); [|discriminate].
        apply cons_char_length. intros str' r' H.
        apply IH in H; simpl in *; lia.
      * destruct (simple_escape e); [|discriminate].
        apply cons_char_length. intros str' r' H.
        apply IH in H; simpl in *; lia.
    + apply cons_char_length. intros str' r' H.
      apply IH in H; simpl in *; lia.
Qed.

Lemma parse_chars_length (s str r : jsstring) :
  parse_chars s = Some (str, r) -> List.length r < List.length s.
Proof. apply (parse_chars_length_le (List.length s)). lia. Qed.

Lemma starts_with_length (p s : jsstring) :
  starts_with p s = true -> List.length p <= List.length s.
Proof.
  revert s. induction p as [|a p IH]; intros s; simpl; [lia|].
  destruct s as [|b s]; [discriminate|]. intros H.
  apply andb_prop in H. destruct H as [_ H]. apply IH in H. simpl. lia.
Qed.

(** A value needs fuel twice the length of the text and one, elements
    and members one more. *)
Lemma parse_fuel (fuel : nat) :
  (forall s, 2 * List.length s + 1 <= fuel ->
             progress s (parse_value fuel s)) /\
  (forall s acc, 2 * List.length s + 2 <= fuel ->
                 progress s (parse_elements fuel s acc)) /\
  (forall s acc, 2 * List.length s + 2 <= fuel ->
                 progress s (parse_members fuel s acc)).
Proof.
  induction fuel as [|fuel (IHv & IHe & IHm)].
  - repeat split; intros; lia.
  - split; [|split].
    + intros s Hf. cbn [parse_value parse_elements parse_members].
      destruct (skip_ws s) as [|c r] eqn:Es; [exact I|].
      pose proof (skip_ws_cons s c r Es) as Hr.
      destruct (c =? 123)%N.
      { destruct (skip_ws r) as [|c' r'] eqn:Er; [exact I|].
        pose proof (skip_ws_cons r c' r' Er) as Hr'.
        destruct (c' =? 125)%N; [simpl; lia|].
        specialize (IHm r [] ltac:(lia)).
        destruct (parse_members fuel r []); simpl in *; try tauto; lia. }
      destruct (c =? 91)%N.
      { destruct (skip_ws r) as [|c' r'] eqn:Er; [exact I|].
        pose proof (skip_ws_cons r c' r' Er) as Hr'.
        destruct (c' =? 93)%N; [simpl; lia|].
        specialize (IHe r [] ltac:(lia)).
        destruct (parse_elements fuel r []); simpl in *; try tauto; lia. }
      destruct (c =? 34)%N.
      { destruct (parse_chars r) as [[str r']|] eqn:Ec; [|exact I].
        apply parse_chars_length in Ec. simpl. lia. }
      destruct (starts_with (lit "true") (c :: r)) eqn:Et.
      { apply starts_with_length in Et. simpl in Et |- *.
        destruct r as [|? [|? [|? ?]]]; simpl in *; lia. }
      destruct (starts_with (lit "false") (c :: r)) eqn:Ef.
      { apply starts_with_length in Ef. simpl in Ef |- *.
        destruct r as [|? [|? [|? [|? ?]]]]; simpl in *; lia. }
      destruct (starts_with (lit "null") (c :: r)) eqn:En.
      { apply starts_with_length in En. simpl in En |- *.
        destruct r as [|? [|? [|? ?]]]; simpl in *; lia. }
      destruct (parse_number (c :: r)) as [[n r']|] eqn:Ep; [|exact I].
      apply parse_number_length in Ep. simpl in *. lia.
    + intros s acc Hf. cbn [parse_value parse_elements parse_members].
      specialize (IHv s ltac:(lia)).
      destruct (parse_value fuel s) as [v r| |]; simpl in IHv; try tauto.
      destruct (skip_ws r) as [|c r'] eqn:Er; [exact I|].
      pose proof (skip_ws_cons r c r' Er) as Hr'.
      destruct (c =? 44)%N.
      { specialize (IHe r' (v :: acc) ltac:(lia)).
        destruct (parse_elements fuel r' (v :: acc)); simpl in *;
          try tauto; lia. }
      destruct (c =? 93)%N; simpl; [lia | exact I].
    + intros s acc Hf. cbn [parse_value parse_elements parse_members].
      destruct (skip_ws s) as [|q r] eqn:Es; [exact I|].
      pose proof (skip_ws_cons s q r Es) as Hr.
      destruct (q =? 34)%N; [|exact I].
      destruct (parse_chars r) as [[key r1]|] eqn:Ec; [|exact I].
      apply parse_chars_length in Ec.
      destruct (skip_ws r1) as [|colon r2] eqn:E1; [exact I|].
      pose proof (skip_ws_cons r1 colon r2 E1) as Hr2.
      destruct (colon =? 58)%N; [|exact I].
      specialize (IHv r2 ltac:(lia)).
      destruct (parse_value fuel r2) as [v r3| |]; simpl in IHv; try tauto.
      destruct (skip_ws r3) as [|c r4] eqn:E3; [exact I|].
      pose proof (skip_ws_cons r3 c r4 E3) as Hr4.
      destruct (c =? 44)%N.
      { specialize (IHm r4 ((key, v) :: acc) ltac:(lia)).
        destruct (parse_members fuel r4 ((key, v) :: acc)); simpl in *;
          try tauto; lia. }
      destruct (c =? 125)%N; simpl; [lia | exact I].
Qed.

(** [JSON_parse] returns a value or throws: its fuel always suffices. *)
Lemma JSON_parse_decides (text : jsstring) : JSON_parse text <> OutOfFuel.
Proof.
  unfold JSON_parse.
  pose proof (proj1 (parse_fuel (2 * List.length text + 1)) text (le_n _)) as H.
  destruct (parse_value (2 * List.length text + 1) text) as [v r| |];
    simpl in H; [|discriminate|tauto].
  destruct (skip_ws r); discriminate.
Qed.

End ParserFuel.

(** ** [Date.prototype.toISOString] *)

Section Calendar.
Import JS.
Open Scope Z_scope.

Lemma leap_step_4 (y : Z) :
  (y + 1 - 1969) / 4 = (y - 1969) / 4 + (if y mod 4 =? 0 then 1 else 0).
Proof.
  destruct (y mod 4 =? 0) eqn:E; rewrite ?Z.eqb_eq, ?Z.eqb_neq in E;
    Z.div_mod_to_equations; lia.
Qed.

Lemma leap_step_100 (y : Z) :
  (y + 1 - 1901) / 100 = (y - 1901) / 100 + (if y mod 100 =? 0 then 1 else 0).
Proof.
  destruct (y mod 100 =? 0) eqn:E; rewrite ?Z.eqb_eq, ?Z.eqb_neq in E;
    Z.div_mod_to_equations; lia.
Qed.

Lemma leap_step_400 (y : Z) :
  (y + 1 - 1601) / 400 = (y - 1601) / 400 + (if y mod 400 =? 0 then 1 else 0).
Proof.
  destruct (y mod 400 =? 0) eqn:E; rewrite ?Z.eqb_eq, ?Z.eqb_neq in E;
    Z.div_mod_to_equations; lia.
Qed.

Lemma mod_100_4 (y : Z) : y mod 100 = 0 -> y mod 4 = 0.
Proof.
  intros H. rewrite <- (Z.mod_mod_divide y 100 4); [rewrite H; reflexivity|].
  exists 25. reflexivity.
Qed.

Lemma mod_400_100 (y : Z) : y mod 400 = 0 -> y mod 100 = 0.
Proof.
  intros H. rewrite <- (Z.mod_mod_divide y 400 100); [rewrite H; reflexivity|].
  exists 4. reflexivity.
Qed.

Lemma DayFromYear_step (y : Z) :
  DayFromYear (y + 1) = DayFromYear y + DaysInYear y.
Proof.
  unfold DayFromYear, DaysInYear.
  replace (y + 1 - 1970) with (y - 1970 + 1) by lia.
  rewrite leap_step_4, leap_step_100, leap_step_400.
  pose proof (mod_100_4 y) as H1. pose proof (mod_400_100 y) as H2.
  destruct (y mod 4 =? 0) eqn:E4; destruct (y mod 100 =? 0) eqn:E100;
    destruct (y mod 400 =? 0) eqn:E400; cbn [andb orb negb];
    rewrite ?Z.eqb_eq, ?Z.eqb_neq in *; lia.
Qed.

Lemma YearFromTime_spec (t : Z) :
  DayFromYear (YearFromTime t) <= Day t < DayFromYear (YearFromTime t + 1).
Proof.
  unfold YearFromTime. generalize (Day t) as d. intros d.
  set (y := 1970 + 400 * d / 146097).
  assert (Hy : DayFromYear (y - 1) <= d < DayFromYear (y + 2)).
  { unfold DayFromYear, y. Z.div_mod_to_equations. lia. }
  destruct (d <? DayFromYear y) eqn:E1.
  - apply Z.ltb_lt in E1. replace (y - 1 + 1) with y by lia. lia.
  - apply Z.ltb_ge in E1. destruct (DayFromYear (y + 1) <=? d) eqn:E2.
    + apply Z.leb_le in E2. replace (y + 1 + 1) with (y + 2) by lia. lia.
    + apply Z.leb_gt in E2. lia.
Qed.
Lemma DaysInYear_cases (y : Z) : DaysInYear y = 365 \/ DaysInYear y = 366.
Proof.
  unfold DaysInYear.
  destruct ((y mod 4 =? 0) && (negb (y mod 100 =? 0) || (y mod 400 =? 0)));
    auto.
Qed.

Lemma DayWithinYear_bound (t : Z) :
  0 <= DayWithinYear t < 365 + InLeapYear t /\ 0 <= InLeapYear t <= 1.
Proof.
  unfold DayWithinYear, InLeapYear.
  pose proof (YearFromTime_spec t) as H. rewrite DayFromYear_step in H.
  destruct (DaysInYear_cases (YearFromTime t)) as [E|E]; rewrite E in *;
    simpl; lia.
Qed.

Lemma MonthFromTime_bound (t : Z) : 0 <= MonthFromTime t <= 11.
Proof.
  unfold MonthFromTime.
  repeat match goal with
         | |- context [if ?b then _ else _] => destruct b
         end; lia.
Qed.

Lemma DateFromTime_bound (t : Z) : 1 <= DateFromTime t <= 31.
Proof.
  pose proof (DayWithinYear_bound t) as [Hd Hl].
  unfold DateFromTime, MonthFromTime.
  repeat match goal with
         | |- context [if (?a <? ?b) then _ else _] =>
             destruct (Z.ltb_spec a b)
         end; cbn [Z.eqb Pos.eqb]; lia.
Qed.

Lemma YearFromTime_bound (t : Z) :
  valid_time t -> -999999 <= YearFromTime t <= 999999.
Proof.
  unfold valid_time. intros Ht.
  pose proof (YearFromTime_spec t) as H. rewrite DayFromYear_step in H.
  assert (Hd : -100000000 <= Day t <= 100000000).
  { unfold Day, msPerDay. Z.div_mod_to_equations. lia. }
  destruct (DaysInYear_cases (YearFromTime t)) as [E|E]; rewrite E in H;
    unfold DayFromYear in H; Z.div_mod_to_equations; lia.
Qed.

End Calendar.

(** ** What [toISOString] writes is an ISO 8601 instant *)

Section IsoFormat.
Import JS SSEServer.
Open Scope Z_scope.

Lemma digit_char (n : Z) :
  0 <= n < 10 ->
  is_digit (Z.to_N (48 + n)) = true /\ Z.of_N (Z.to_N (48 + n)) - 48 = n.
Proof.
  intros H. unfold is_digit. split.
  - apply andb_true_intro. split; apply N.leb_le; lia.
  - lia.
Qed.

Lemma read_digits_decimal (k j : nat) (n acc : Z) (r : jsstring) :
  0 <= n < 10 ^ Z.of_nat k ->
  read_digits (k + j) acc (decimal k n ++ r) =
  read_digits j (acc * 10 ^ Z.of_nat k + n) r.
Proof.
  revert j n acc r. induction k as [|k IH]; intros j n acc r Hn.
  - simpl in *. f_equal. lia.
  - rewrite Nat2Z.inj_succ, Z.pow_succ_r in * by lia.
    replace (S k + j)%nat with (k + S j)%nat by lia.
    cbn [decimal]. rewrite <- app_assoc. rewrite IH.
    + cbn [app read_digits].
      destruct (digit_char (n mod 10)) as [Hd Hv];
        [apply Z.mod_pos_bound; lia|].
      rewrite Hd, Hv. f_equal. Z.div_mod_to_equations. lia.
    + Z.div_mod_to_equations. lia.
Qed.

Lemma starts_with_app (p r : jsstring) : starts_with p (p ++ r) = true.
Proof.
  induction p as [|a p IH]; simpl; [reflexivity|].
  rewrite N.eqb_refl. exact IH.
Qed.

Lemma skipn_length_app (p r : jsstring) : skipn (List.length p) (p ++ r) = r.
Proof. induction p as [|a p IH]; simpl; auto. Qed.

Lemma field_decimal (k : nat) (lo hi : Z) (sep : jsstring) (n : Z)
    (r : jsstring) :
  0 <= n < 10 ^ Z.of_nat k -> lo <= n <= hi ->
  field k lo hi sep (decimal k n ++ sep ++ r) = Some r.
Proof.
  intros Hn Hr. unfold field.
  rewrite <- (Nat.add_0_r k) at 1. rewrite read_digits_decimal by exact Hn.
  cbn [read_digits]. rewrite Z.mul_0_l, Z.add_0_l.
  rewrite starts_with_app, skipn_length_app.
  destruct (Z.leb_spec lo n); [|lia]. destruct (Z.leb_spec n hi); [|lia].
  reflexivity.
Qed.

Lemma decimal_digits (k : nat) (n : Z) :
  Forall (fun c => is_digit c = true) (decimal k n).
Proof.
  revert n. induction k as [|k IH]; intros n; simpl; [constructor|].
  apply Forall_app. split; [apply IH|]. constructor; [|constructor].
  apply digit_char, Z.mod_pos_bound. lia.
Qed.

Lemma decimal_head (k : nat) (n : Z) :
  exists c tl, decimal (S k) n = c :: tl /\ is_digit c = true.
Proof.
  pose proof (decimal_digits (S k) n) as H.
  destruct (decimal (S k) n) as [|c tl] eqn:E.
  - simpl in E. destruct (decimal k (n / 10)); discriminate.
  - exists c, tl. split; [reflexivity|]. inversion H; assumption.
Qed.

Lemma year_field (y : Z) (r : jsstring) :
  -999999 <= y <= 999999 ->
  match iso_year y ++ lit "-" ++ r with
  | [] => None
  | c :: r' =>
      if ((c =? 43) || (c =? 45))%N then field 6 0 999999 (lit "-") r'
      else field 4 0 9999 (lit "-") (iso_year y ++ lit "-" ++ r)
  end = Some r.
Proof.
  intros Hy. unfold iso_year.
  destruct (Z.leb_spec 0 y); [destruct (Z.leb_spec y 9999)|]; cbn [andb].
  - destruct (decimal_head 3 y) as (c & tl & E & Hc).
    assert (Es : decimal 4 y ++ lit "-" ++ r = c :: tl ++ lit "-" ++ r)
      by (rewrite E; reflexivity).
    rewrite Es. cbv beta iota. rewrite <- Es.
    replace ((c =? 43) || (c =? 45))%N with false.
    + apply field_decimal; simpl; lia.
    + unfold is_digit in Hc. apply andb_prop in Hc. destruct Hc as [H1 H2].
      apply N.leb_le in H1, H2. symmetry. apply orb_false_intro;
        apply N.eqb_neq; lia.
  - destruct (Z.ltb_spec y 0); [lia|]. cbn [lit app].
    change (N_of_ascii "+") with 43%N. cbn [N.eqb Pos.eqb orb].
    apply (field_decimal 6 0 999999 (lit "-") y r); simpl; lia.
  - destruct (Z.ltb_spec y 0); [|lia]. cbn [lit app].
    change (N_of_ascii "-") with 45%N. cbn [N.eqb Pos.eqb orb].
    apply (field_decimal 6 0 999999 (lit "-") (- y) r); simpl; lia.
Qed.

Lemma toISOString_format (t : Z) :
  valid_time t -> is_ISO_8601 (toISOString t) = true.
Proof.
  intros Ht. unfold is_ISO_8601, toISOString.
  rewrite year_field by (apply YearFromTime_bound, Ht).
  pose proof (MonthFromTime_bound t). pose proof (DateFromTime_bound t).
  unfold then_field.
  rewrite (field_decimal 2) by (simpl; lia).
  rewrite (field_decimal 2) by (simpl; lia).
  rewrite (field_decimal 2)
    by (unfold HourFromTime; simpl; Z.div_mod_to_equations; lia).
  rewrite (field_decimal 2)
    by (unfold MinFromTime; simpl; Z.div_mod_to_equations; lia).
  rewrite (field_decimal 2)
    by (unfold SecFromTime; simpl; Z.div_mod_to_equations; lia).
  rewrite <- (app_nil_r (lit "Z")).
  rewrite (field_decimal 3)
    by (unfold msFromTime; simpl; Z.div_mod_to_equations; lia).
  reflexivity.
Qed.

End IsoFormat.

(** ** The text of an event parses back to its payload *)

Section PayloadText.
Import JS SSEServer.

Lemma plain_facts (c : N) :
  plain c = true ->
  (32 <= c /\ c < 127 /\ c <> 34 /\ c <> 92)%N.
Proof.
  unfold plain. intros H.
  apply andb_prop in H. destruct H as [H H4].
  apply andb_prop in H. destruct H as [H H3].
  apply andb_prop in H. destruct H as [H1 H2].
  apply N.leb_le in H1. apply N.ltb_lt in H2.
  apply negb_true_iff, N.eqb_neq in H3, H4. auto.
Qed.

Lemma quote_chars_plain (s : jsstring) :
  forallb plain s = true -> quote_chars s = s.
Proof.
  induction s as [|c s IH]; simpl; [reflexivity|]. intros H.
  apply andb_prop in H. destruct H as [Hc Hs].
  apply plain_facts in Hc. destruct Hc as (H1 & H2 & H3 & H4).
  rewrite (IH Hs).
  repeat match goal with
         | |- context [(c =? ?k)%N] =>
             destruct (N.eqb_spec c k); [lia|]
         end.
  destruct (N.ltb_spec c 32); [lia|].
  unfold is_high_surrogate, is_low_surrogate.
  destruct (N.leb_spec 55296 c); [lia|].
  destruct (N.leb_spec 56320 c); [lia|]. reflexivity.
Qed.

Lemma parse_chars_plain (s r : jsstring) :
  forallb plain s = true -> parse_chars (s ++ 34%N :: r) = Some (s, r).
Proof.
  induction s as [|c s IH]; intros H.
  - reflexivity.
  - simpl in H. apply andb_prop in H. destruct H as [Hc Hs].
    apply plain_facts in Hc. destruct Hc as (H1 & H2 & H3 & H4).
    cbn [app parse_chars].
    destruct (N.eqb_spec c 34); [lia|].
    destruct (N.ltb_spec c 32); [lia|].
    destruct (N.eqb_spec c 92); [lia|].
    rewrite (IH Hs). reflexivity.
Qed.

Lemma parse_value_string (f : nat) (str r : jsstring) :
  forallb plain str = true ->
  parse_value (S f) (34%N :: str ++ 34%N :: r) = Parsed (JString str) r.
Proof.
  intros H. cbn [parse_value skip_ws]. change (json_ws 34) with false.
  cbv beta iota. change (34 =? 123)%N with false. change (34 =? 91)%N with false.
  change (34 =? 34)%N with true. cbv beta iota.
  rewrite (parse_chars_plain str r H). reflexivity.
Qed.

Lemma parse_value_object (f : nat) (r : jsstring) :
  parse_value (S f) (123%N :: 34%N :: r) = parse_members f (34%N :: r) [].
Proof.
  cbn [parse_value skip_ws]. change (json_ws 123) with false.
  cbv beta iota. change (123 =? 123)%N with true.
  change (json_ws 34) with false. cbv beta iota.
  change (34 =? 125)%N with false. reflexivity.
Qed.

Lemma parse_members_string (f : nat) (key str r : jsstring)
    (acc : list (jsstring * json)) (c : N) :
  forallb plain key = true -> forallb plain str = true ->
  json_ws c = false ->
  parse_members (S (S f)) (34%N :: key ++ 34%N :: 58%N :: 34%N :: str ++ 34%N :: c :: r)
    acc =
  if (c =? 44)%N then parse_members (S f) r ((key, JString str) :: acc)
  else if (c =? 125)%N then Parsed (JObject (rev ((key, JString str) :: acc))) r
  else SyntaxError.
Proof.
  intros Hk Hs Hc. cbn [parse_members skip_ws]. change (json_ws 34) with false.
  cbv beta iota. change (34 =? 34)%N with true. cbv beta iota.
  rewrite (parse_chars_plain key _ Hk). cbn [skip_ws].
  change (json_ws 58) with false. cbv beta iota.
  change (58 =? 58)%N with true. cbv beta iota.
  rewrite (parse_value_string f str (c :: r) Hs).
  cbn [skip_ws]. rewrite Hc. reflexivity.
Qed.

Lemma decimal_plain (k : nat) (n : Z) : forallb plain (decimal k n) = true.
Proof.
  apply forallb_forall. intros c Hc.
  pose proof (decimal_digits k n) as H. rewrite Forall_forall in H.
  specialize (H c Hc). unfold is_digit in H. apply andb_prop in H.
  destruct H as [H1 H2]. apply N.leb_le in H1, H2. unfold plain.
  destruct (N.leb_spec 32 c); [|lia]. destruct (N.ltb_spec c 127); [|lia].
  destruct (N.eqb_spec c 34); [lia|]. destruct (N.eqb_spec c 92); [lia|].
  reflexivity.
Qed.

Lemma toISOString_plain (t : Z) : forallb plain (toISOString t) = true.
Proof.
  unfold toISOString, iso_year.
  destruct ((0 <=? YearFromTime t)%Z && (YearFromTime t <=? 9999)%Z);
    [|destruct (YearFromTime t <? 0)%Z];
    rewrite !forallb_app, !decimal_plain; reflexivity.
Qed.

Lemma stringify_payload (now : Z) :
  JSON_stringify (payload now) = payload_text (toISOString now).
Proof.
  unfold payload, payload_text. cbn [JSON_stringify map join_comma].
  unfold QuoteJSONString.
  rewrite (quote_chars_plain (toISOString now) (toISOString_plain now)).
  rewrite (quote_chars_plain (lit "msg")) by reflexivity.
  rewrite (quote_chars_plain (lit "time")) by reflexivity.
  rewrite (quote_chars_plain (lit "Hello from fetch SSE")) by reflexivity.
  repeat (rewrite <- app_assoc || rewrite <- app_comm_cons).
  reflexivity.
Qed.

Lemma payload_text_app (iso r : jsstring) :
  payload_text iso ++ r =
  (123 :: 34 :: lit "msg" ++ 34 :: 58 :: 34 :: lit "Hello from fetch SSE" ++
   34 :: 44 :: 34 :: lit "time" ++ 34 :: 58 :: 34 :: iso ++ 34 :: 125 :: r)%N.
Proof.
  unfold payload_text. simpl. rewrite <- app_assoc. reflexivity.
Qed.

(** The text of a payload parses to the payload, whatever follows it. *)
Lemma parse_payload_text (k : nat) (iso r : jsstring) :
  forallb plain iso = true ->
  parse_value (4 + k) (payload_text iso ++ r) =
  Parsed (JObject [(lit "msg", JString (lit "Hello from fetch SSE"));
                   (lit "time", JString iso)]) r.
Proof.
  intros H. rewrite payload_text_app. change (4 + k) with (S (S (S (S k)))).
  rewrite parse_value_object.
  rewrite (parse_members_string (S k) (lit "msg") (lit "Hello from fetch SSE"))
    by reflexivity.
  change (44 =? 44)%N with true. cbv beta iota.
  rewrite (parse_members_string k (lit "time") iso r _ 125%N)
    by (reflexivity || exact H).
  reflexivity.
Qed.

Lemma JSON_parse_payload_text (iso r : jsstring) :
  forallb plain iso = true ->
  JSON_parse (payload_text iso ++ r) =
  match skip_ws r with
  | [] => Parsed (JObject [(lit "msg", JString (lit "Hello from fetch SSE"));
                           (lit "time", JString iso)]) []
  | _ :: _ => SyntaxError
  end.
Proof.
  intros H. unfold JSON_parse.
  assert (Hl : 2 <= List.length (payload_text iso ++ r))
    by (rewrite payload_text_app; cbn [List.length]; lia).
  replace (2 * List.length (payload_text iso ++ r) + 1)
    with (4 + (2 * List.length (payload_text iso ++ r) - 3)) by lia.
  rewrite parse_payload_text by exact H. reflexivity.
Qed.

Lemma payload_parses (now : Z) :
  JSON_parse (JSON_stringify (payload now)) = Parsed (payload now) [].
Proof.
  rewrite stringify_payload.
  rewrite <- (app_nil_r (payload_text (toISOString now))).
  rewrite JSON_parse_payload_text by apply toISOString_plain. reflexivity.
Qed.

Lemma payload_text_no_LF (now : Z) :
  ~ In 10%N (lit "data: " ++ JSON_stringify (payload now)).
Proof.
  rewrite stringify_payload. intros Hin.
  assert (Hp : forallb (fun c => negb (c =? 10)%N)
                 (lit "data: " ++ payload_text (toISOString now)) = true).
  { unfold payload_text. simpl. rewrite forallb_app.
    apply andb_true_intro. split; [|reflexivity].
    apply forallb_forall. intros c Hc.
    pose proof (toISOString_plain now) as H. rewrite forallb_forall in H.
    apply H, plain_facts in Hc. apply negb_true_iff, N.eqb_neq. lia. }
  rewrite forallb_forall in Hp. specialize (Hp _ Hin). discriminate Hp.
Qed.

End PayloadText.

(** ** C8 and C9: the intervals of the event source *)

Section EventSource.
Import JS SSEServer.

Lemma run_app_sse (tr1 tr2 : list Event) (st : Server) :
  run (tr1 ++ tr2) st = run tr2 (run tr1 st).
Proof. unfold run. apply fold_left_app. Qed.

Lemma handle_intervals (e : Event) (st : Server) :
  intervals (handle e st) =
  intervals st ++
  map (fun res => {| target := res; delay := 5000 |}) (requests [e]).
Proof.
  destruct e as [res|i now|res]; simpl.
  - reflexivity.
  - destruct (nth_error (intervals st) i); simpl; symmetry; apply app_nil_r.
  - symmetry; apply app_nil_r.
Qed.

Lemma run_intervals (tr : list Event) (st : Server) :
  intervals (run tr st) =
  intervals st ++ map (fun res => {| target := res; delay := 5000 |}) (requests tr).
Proof.
  revert st. induction tr as [|e tr IH]; intros st.
  - simpl. symmetry. apply app_nil_r.
  - change (run (e :: tr) st) with (run tr (handle e st)).
    rewrite IH, handle_intervals. rewrite <- app_assoc. f_equal.
    destruct e; simpl; reflexivity.
Qed.

Lemma requests_app (tr1 tr2 : list Event) :
  requests (tr1 ++ tr2) = requests tr1 ++ requests tr2.
Proof.
  induction tr1 as [|e tr1 IH]; simpl; [reflexivity|].
  destruct e; simpl; rewrite IH; reflexivity.
Qed.

Lemma run_disconnected (tr : list Event) (st : Server) (res : Response) :
  In (Disconnect res) tr \/ In res (disconnected st) ->
  In res (disconnected (run tr st)).
Proof.
  revert st. induction tr as [|e tr IH]; intros st H.
  - simpl in *. tauto.
  - change (run (e :: tr) st) with (run tr (handle e st)). apply IH.
    destruct H as [[->|H]|H]; auto.
    + right. simpl. auto.
    + right. destruct e as [r|i now|r]; simpl; auto.
      destruct (nth_error (intervals st) i); simpl; auto.
Qed.

Lemma tick_effects (st : Server) (i : nat) (iv : Interval) (now : Z) :
  nth_error (intervals st) i = Some iv ->
  effects (handle (Tick i now) st) =
  effects st ++ [console_log blue (lit "Sending message to client");
                 write (target iv) (event_text now)].
Proof. intros H. simpl. rewrite H. reflexivity. Qed.

Lemma written_app (res : Response) (es1 es2 : list Effect) :
  written res (es1 ++ es2) = written res es1 ++ written res es2.
Proof.
  induction es1 as [|e es1 IH]; simpl; [reflexivity|].
  destruct e; auto. destruct (Nat.eqb res0 res); simpl; rewrite IH; reflexivity.
Qed.

Lemma reachable_delay (tr : list Event) (iv : Interval) :
  In iv (intervals (run tr initial)) -> delay iv = 5000%Z.
Proof.
  rewrite run_intervals. simpl. rewrite in_map_iff.
  intros (res & <- & _). reflexivity.
Qed.

(** C8.  In any state the server reaches, every interval that is set has
    a delay of 5000 ms, and each time one comes due, at a valid clock
    reading [now], its response is written one chunk: [data: ], the JSON
    text of a mapping with the fields [msg] and [time], the latter the
    ISO 8601 instant of [now], and two line feeds, the only ones of the
    chunk. *)
Theorem event_source_emits (tr : list Event) (i : nat) (iv : Interval)
    (now : Z) :
  valid_time now ->
  nth_error (intervals (run tr initial)) i = Some iv ->
  delay iv = 5000%Z /\
  written (target iv) (effects (handle (Tick i now) (run tr initial))) =
    written (target iv) (effects (run tr initial)) ++ [event_text now] /\
  event_text now = lit "data: " ++ JSON_stringify (payload now) ++ [10; 10]%N /\
  ~ In 10%N (lit "data: " ++ JSON_stringify (payload now)) /\
  JSON_parse (JSON_stringify (payload now)) =
    Parsed (JObject [(lit "msg", JString (lit "Hello from fetch SSE"));
                     (lit "time", JString (toISOString now))]) [] /\
  is_ISO_8601 (toISOString now) = true.
Proof.
  intros Ht Hi. split.
  - apply (reachable_delay tr). apply nth_error_In with i. exact Hi.
  - split.
    + rewrite (tick_effects _ i _ now Hi), written_app. simpl.
      rewrite Nat.eqb_refl. reflexivity.
    + split; [reflexivity|]. split; [apply payload_text_no_LF|].
      split; [apply payload_parses | apply toISOString_format, Ht].
Qed.

(** C9.  No event clears an interval: after any events the intervals are
    those set before and one of 5000 ms per request, so N requests leave N
    intervals.  The interval of a request stays where it was set whatever
    follows, the going away of its client included, and each time it
    comes due the server logs and writes an event to its response. *)
Theorem intervals_never_cleared :
  (forall (tr : list Event) (st : Server),
      intervals (run tr st) =
      intervals st ++
      map (fun res => {| target := res; delay := 5000 |}) (requests tr)) /\
  (forall tr : list Event,
      List.length (intervals (run tr initial)) = List.length (requests tr)) /\
  (forall (tr1 tr2 : list Event) (res : Response) (now : Z),
      let st := run (tr1 ++ Request res :: tr2) initial in
      let i := List.length (requests tr1) in
      nth_error (intervals st) i = Some {| target := res; delay := 5000 |} /\
      (In (Disconnect res) tr2 -> In res (disconnected st)) /\
      effects (handle (Tick i now) st) =
        effects st ++ [console_log blue (lit "Sending message to client");
                       write res (event_text now)]).
Proof.
  split; [exact run_intervals|]. split.
  - intros tr. rewrite run_intervals. simpl. apply length_map.
  - intros tr1 tr2 res now st i.
    assert (Hi : nth_error (intervals st) i =
                 Some {| target := res; delay := 5000 |}).
    { unfold st, i. rewrite run_intervals. simpl.
      rewrite requests_app. simpl. rewrite map_app. simpl.
      rewrite nth_error_app2 by (rewrite length_map; lia).
      rewrite length_map, Nat.sub_diag. reflexivity. }
    split; [exact Hi|]. split.
    + intros Hd. unfold st. apply run_disconnected. left.
      apply in_or_app. right. right. exact Hd.
    + apply (tick_effects st i _ now Hi).
Qed.

End EventSource.

Lemma event_source_emits_witness :
  SSEServer.delay {| SSEServer.target := 7; SSEServer.delay := 5000 |} = 5000%Z /\
  SSEServer.written 7
    (SSEServer.effects
       (SSEServer.handle (SSEServer.Tick 0 Stream.t1)
          (SSEServer.run [SSEServer.Request 7] SSEServer.initial))) =
  SSEServer.written 7
    (SSEServer.effects (SSEServer.run [SSEServer.Request 7] SSEServer.initial))
  ++ [SSEServer.event_text Stream.t1] /\
  SSEServer.is_ISO_8601 (JS.toISOString Stream.t1) = true.
Proof.
  destruct (event_source_emits [SSEServer.Request 7] 0
              {| SSEServer.target := 7; SSEServer.delay := 5000 |} Stream.t1)
    as (H1 & H2 & _ & _ & _ & H6).
  - unfold JS.valid_time, Stream.t1. lia.
  - reflexivity.
  - auto.
Defined.

Lemma intervals_never_cleared_witness :
  In 7 (SSEServer.disconnected
          (SSEServer.run ([] ++ SSEServer.Request 7 :: [SSEServer.Disconnect 7])
             SSEServer.initial)).
Proof.
  apply (proj2 (proj2 intervals_never_cleared) [] [SSEServer.Disconnect 7] 7 0%Z).
  simpl. auto.
Defined.

(** ** The events of the server through the loop of the client *)

Section EventsThroughClient.
Import JS SSEServer SSEClient.

Lemma replace_unfold (s p r : jsstring) :
  replace s p r =
  if starts_with p s then r ++ skipn (List.length p) s
  else match s with
       | [] => []
       | c :: s' => c :: replace s' p r
       end.
Proof. destruct s; reflexivity. Qed.

Lemma replace_prefix (p s : jsstring) : replace (p ++ s) p [] = s.
Proof.
  rewrite replace_unfold, starts_with_app, skipn_length_app. reflexivity.
Qed.

Lemma trimEnd_snoc_ws (s : jsstring) (c : N) :
  is_white_space c = true -> trimEnd (s ++ [c]) = trimEnd s.
Proof.
  intros H. unfold trimEnd. rewrite rev_app_distr. simpl. rewrite H.
  reflexivity.
Qed.

Lemma trimEnd_snoc (s : jsstring) (c : N) :
  is_white_space c = false -> trimEnd (s ++ [c]) = s ++ [c].
Proof.
  intros H. unfold trimEnd. rewrite rev_app_distr. simpl. rewrite H.
  change (rev (c :: rev s)) with (rev (rev s) ++ [c]).
  rewrite rev_involutive. reflexivity.
Qed.

Lemma payload_text_snoc (iso : jsstring) :
  exists body, payload_text iso = body ++ [125%N].
Proof.
  exists ((123 :: 34 :: lit "msg" ++ 34 :: 58 :: 34 ::
           lit "Hello from fetch SSE" ++ 34 :: 44 :: 34 :: lit "time" ++
           [34; 58; 34])%N ++ iso ++ [34%N]).
  unfold payload_text. simpl. rewrite <- app_assoc. reflexivity.
Qed.

Lemma trimStart_payload_text (iso r : jsstring) :
  trimStart (payload_text iso ++ r) = payload_text iso ++ r.
Proof. rewrite payload_text_app. reflexivity. Qed.

Lemma trimEnd_payload_text (iso : jsstring) :
  trimEnd (payload_text iso) = payload_text iso.
Proof.
  destruct (payload_text_snoc iso) as [body ->]. apply trimEnd_snoc.
  reflexivity.
Qed.

(** The text [startSSE] hands to [JSON.parse] for a chunk that is one
    event of the server. *)
Lemma data_of_event (now : Z) :
  data_of (event_text now) = JSON_stringify (payload now).
Proof.
  unfold data_of, event_text. rewrite replace_prefix, stringify_payload.
  unfold trim. rewrite trimStart_payload_text.
  change [10%N; 10%N] with ([10%N] ++ [10%N]). rewrite app_assoc.
  rewrite !trimEnd_snoc_ws by reflexivity. apply trimEnd_payload_text.
Qed.

(** A chunk that is one event of the server, at any clock reading, is
    parsed and logged. *)
Lemma on_chunk_event (now : Z) (console : list LogLine) :
  on_chunk (event_text now) console =
  Normal (console ++ [Received_chunk (event_text now)] ++
          [Parsed_Data (payload now); All_headers]).
Proof.
  unfold on_chunk. rewrite data_of_event, payload_parses.
  replace (includes (event_text now) (lit "data:")) with true by reflexivity.
  rewrite <- app_assoc. reflexivity.
Qed.

(** The text handed to [JSON.parse] for a chunk of two events: the text
    of the first, the blank line, and the second with its prefix. *)
Lemma data_of_two_events (now1 now2 : Z) :
  data_of (event_text now1 ++ event_text now2) =
  payload_text (toISOString now1) ++
  [10; 10]%N ++ lit "data: " ++ payload_text (toISOString now2).
Proof.
  unfold data_of, event_text. rewrite <- app_assoc, replace_prefix.
  rewrite !stringify_payload. unfold trim.
  rewrite <- app_assoc, trimStart_payload_text.
  destruct (payload_text_snoc (toISOString now2)) as [body ->].
  replace (payload_text (toISOString now1) ++
           [10; 10]%N ++ lit "data: " ++ (body ++ [125%N]) ++ [10; 10]%N)
    with ((((payload_text (toISOString now1) ++
             [10; 10]%N ++ lit "data: " ++ body) ++ [125%N]) ++ [10%N]) ++ [10%N])
    by (repeat (rewrite <- app_assoc; cbn [app lit]); reflexivity).
  rewrite !trimEnd_snoc_ws by reflexivity.
  rewrite trimEnd_snoc by reflexivity.
  repeat (rewrite <- app_assoc; cbn [app lit]). reflexivity.
Qed.

(** A chunk of two events of the server, at any clock readings, makes
    [JSON.parse] throw. *)
Lemma on_chunk_two_events (now1 now2 : Z) (console : list LogLine) :
  on_chunk (event_text now1 ++ event_text now2) console =
  Throw (console ++ [Received_chunk (event_text now1 ++ event_text now2)]).
Proof.
  unfold on_chunk. rewrite data_of_two_events.
  rewrite JSON_parse_payload_text by apply toISOString_plain.
  replace (includes (event_text now1 ++ event_text now2) (lit "data:"))
    with true by reflexivity.
  reflexivity.
Qed.

End EventsThroughClient.

(** ** C10: chunks on which [JSON.parse] throws *)

Section ChunkParsing.
Import JS SSEServer SSEClient.

(** A complete event whose message holds [data: ] is parsed: the first
    occurrence, the one [replace] removes, is the prefix. *)
Lemma on_chunk_quoting_event :
  returns (on_chunk Stream.quoting_event []) = true.
Proof. vm_compute. reflexivity. Qed.

(** C10.  [startSSE] takes each chunk for one complete event.  On a chunk
    that holds two events of the server [JSON.parse] throws a SyntaxError,
    whatever their times, and so it does on the first part of an event
    cut in two and on a later part that holds [data:] inside the message;
    the exception leaves the loop, the chunks that follow are not read. *)
Theorem startSSE_parse_throws :
  (forall (now1 now2 : Z) (console : list LogLine),
      let chunk := event_text now1 ++ event_text now2 in
      includes chunk (lit "data:") = true /\
      JSON_parse (data_of chunk) = SyntaxError /\
      on_chunk chunk console = Throw (console ++ [Received_chunk chunk])) /\
  (includes Stream.first_half (lit "data:") = true /\
   JSON_parse (data_of Stream.first_half) = SyntaxError /\
   on_chunk Stream.first_half [] = Throw [Received_chunk Stream.first_half]) /\
  (includes Stream.quoting_tail (lit "data:") = true /\
   JSON_parse (data_of Stream.quoting_tail) = SyntaxError /\
   on_chunk Stream.quoting_tail [] =
     Throw [Received_chunk Stream.quoting_tail]) /\
  startSSE [Stream.first_half; Stream.second_half] [] =
    Throw [Received_chunk Stream.first_half] /\
  startSSE [Stream.event1; Stream.coalesced; Stream.event2] [] =
    Throw [Received_chunk Stream.event1;
           Parsed_Data (payload Stream.t1); All_headers;
           Received_chunk Stream.coalesced].
Proof.
  split.
  - intros now1 now2 console chunk. split; [reflexivity|]. split.
    + unfold chunk. rewrite data_of_two_events.
      rewrite JSON_parse_payload_text by apply toISOString_plain.
      reflexivity.
    + apply on_chunk_two_events.
  - repeat split; vm_compute; reflexivity.
Qed.

End ChunkParsing.

(* ===================================================================== *)
(** * Part III. More of the programs                                      *)
(* ===================================================================== *)

(** ** The relay: what is sent, to whom, and what is logged *)

Section RelayAudit.
Import JS ChatServer ChatLog.
Context {Buffer : Type} (toString : Buffer -> jsstring).

Lemma eligible_facts (w : Sockets) (s c : Socket) :
  eligible w s c = true <-> c <> s /\ readyState w c = OPEN.
Proof.
  unfold eligible. rewrite andb_true_iff, negb_true_iff, Nat.eqb_neq.
  destruct (readyState w c); simpl; intuition congruence.
Qed.

Lemma run_sent_origin (tr : list (Sockets * Event Buffer)) (st : Server)
    (c : Socket) (m : jsstring) :
  In (c, m) (sent (state_of (run toString tr st))) ->
  In (c, m) (sent st) \/
  exists tr1 w s data tr2 st1,
    tr = tr1 ++ (w, Message s data) :: tr2 /\
    run toString tr1 st = Normal st1 /\
    m = toString data /\ c <> s /\ readyState w c = OPEN /\
    In c (clients st1).
Proof.
  revert st. induction tr as [|[w e] tr IH]; intros st H; simpl in H.
  - auto.
  - destruct e as [x|x data|x].
    + simpl in H. apply IH in H. destruct H as [H|H]; [left; exact H|].
      right. destruct H as (tr1 & w' & s & d & tr2 & st1 & -> & Hr & Hrest).
      exists ((w, Connection x) :: tr1), w', s, d, tr2, st1.
      split; [reflexivity|]. split; [exact Hr | exact Hrest].
    + simpl in H.
      pose proof (on_message_state toString w x data st) as (Hc & _ & Hs).
      assert (Hhere : In (c, m) (sent (state_of (on_message toString w x data st)))
                      -> In (c, m) (sent st) \/
                         (m = toString data /\ c <> x /\
                          readyState w c = OPEN /\ In c (clients st))).
      { rewrite Hs, in_app_iff, in_map_iff. intros [Hin|(c' & Heq & Hin)]; auto.
        injection Heq as -> <-. apply served_sub in Hin.
        destruct Hin as [Hin He]. apply eligible_facts in He. tauto. }
      assert (Hdone : In (c, m) (sent (state_of (on_message toString w x data st)))
                      -> In (c, m) (sent st) \/
                         exists tr1 w0 s d tr2 st1,
                           (w, Message x data) :: tr =
                             tr1 ++ (w0, Message s d) :: tr2 /\
                           run toString tr1 st = Normal st1 /\
                           m = toString d /\ c <> s /\
                           readyState w0 c = OPEN /\ In c (clients st1)).
      { intros Hin. apply Hhere in Hin. destruct Hin as [Hin|Hin]; auto.
        right. exists [], w, x, data, tr, st. simpl. tauto. }
      destruct (on_message toString w x data st) as [st'|st'] eqn:E;
        simpl in *; [|auto].
      apply IH in H. destruct H as [H|H]; [auto|].
      right. destruct H as (tr1 & w' & s & d & tr2 & st1 & -> & Hr & Hrest).
      exists ((w, Message x data) :: tr1), w', s, d, tr2, st1.
      split; [reflexivity|]. split; [simpl; rewrite E; exact Hr | exact Hrest].
    + simpl in H. apply IH in H. destruct H as [H|H]; [left; exact H|].
      right. destruct H as (tr1 & w' & s & d & tr2 & st1 & -> & Hr & Hrest).
      exists ((w, Close x) :: tr1), w', s, d, tr2, st1.
      split; [reflexivity|]. split; [exact Hr | exact Hrest].
Qed.

(** X1.  The relay makes nothing up and echoes nothing: whatever it has
    sent to a socket [c] in a run is the [toString()] of a message it
    received from another socket, relayed while [c] was OPEN, connected
    and not yet closed. *)
Theorem relay_sends_only_relayed (tr : list (Sockets * Event Buffer))
    (c : Socket) (m : jsstring) :
  In (c, m) (sent (state_of (run toString tr initial))) ->
  exists tr1 w s data tr2,
    tr = tr1 ++ (w, Message s data) :: tr2 /\
    m = toString data /\ c <> s /\ readyState w c = OPEN /\
    connected_not_closed (map snd tr1) c.
Proof.
  intros H. apply run_sent_origin in H. destruct H as [[]|H].
  destruct H as (tr1 & w & s & data & tr2 & st1 & -> & Hr & Hm & Hc & Ho & Hin).
  exists tr1, w, s, data, tr2. repeat (split; [assumption || reflexivity|]).
  rewrite (run_membership toString tr1 initial st1 Hr c) in Hin.
  simpl in Hin. tauto.
Qed.

End RelayAudit.

Lemma relay_sends_only_relayed_witness :
  exists tr1 w s data tr2,
    Session.three_connect ++ [(Session.healthy, ChatServer.Message 1 Session.hello)]
      = tr1 ++ (w, ChatServer.Message s data) :: tr2 /\
    Session.hello = Session.text data /\ 3 <> s /\
    ChatServer.readyState w 3 = ChatServer.OPEN /\
    ChatServer.connected_not_closed (map snd tr1) 3.
Proof.
  apply (relay_sends_only_relayed Session.text
           (Session.three_connect ++
            [(Session.healthy, ChatServer.Message 1 Session.hello)])
           3 Session.hello).
  simpl. auto.
Defined.

Section RelayDelivery.
Import JS ChatServer ChatLog.
Context {Buffer : Type} (toString : Buffer -> jsstring).

Lemma count_filter_member (f : nat -> bool) (l : list nat) (r : nat) :
  NoDup l ->
  count_occ Nat.eq_dec (filter f l) r =
  if set_has Nat.eqb r l && f r then 1 else 0.
Proof.
  intros Hnd. destruct (set_has Nat.eqb r l) eqn:Eh; simpl.
  - apply set_has_In in Eh. destruct (f r) eqn:Ef.
    + apply count_filter_NoDup; assumption.
    + apply count_occ_not_In. rewrite filter_In. intros [_ H]. congruence.
  - apply set_has_not_In in Eh. apply count_occ_not_In. rewrite filter_In. tauto.
Qed.

(** X2.  One message, any number of members: when no [send] throws, the
    callback returns, leaves [clients] alone, and has called [send] once
    on each member that is OPEN and not the sender, in the order they
    connected; every other socket is sent nothing. *)
Theorem broadcast_reaches_every_open_member
    (tr : list (Sockets * Event Buffer)) (st : Server) (w : Sockets)
    (A : Socket) (data : Buffer) :
  run toString tr initial = Normal st ->
  sends_succeed w A (clients st) ->
  exists st',
    on_message toString w A data st = Normal st' /\
    clients st' = clients st /\
    sent st' = sent st ++ map (fun c => (c, toString data))
                              (filter (eligible w A) (clients st)) /\
    forall r, inbox r st' =
              inbox r st ++
              (if set_has Nat.eqb r (clients st) && eligible w A r
               then [toString data] else []).
Proof.
  intros Hrun Hok.
  pose proof (reachable_NoDup toString tr st Hrun) as Hnd.
  destruct (on_message_returns toString w A data st Hok) as [st' Hst'].
  pose proof (on_message_state toString w A data st) as (Hc & _ & Hs).
  rewrite Hst' in Hc, Hs. simpl in Hc, Hs.
  rewrite served_all in Hs by exact Hok.
  exists st'. repeat (split; [assumption|]).
  intros r. rewrite (inbox_app r st _ _ st' Hs).
  rewrite count_filter_member by exact Hnd.
  destruct (set_has Nat.eqb r (clients st) && eligible w A r); reflexivity.
Qed.

Lemma last_total_app (c1 c2 : list LogLine) :
  last_total (c1 ++ c2) =
  match last_total c2 with
  | Some n => Some n
  | None => last_total c1
  end.
Proof.
  unfold last_total. rewrite fold_left_app.
  generalize (fold_left
                (fun acc l => match l with
                              | Client_connected n => Some n
                              | Client_disconnected n => Some n
                              | Received _ => acc
                              end) c1 None) as a.
  induction c2 as [|l c2 IH] using rev_ind; intros a; simpl.
  - destruct a; reflexivity.
  - rewrite !fold_left_app. simpl. destruct l; try reflexivity.
    rewrite IH.
    destruct (fold_left _ c2 None); reflexivity.
Qed.

Lemma handle_total_current (w : Sockets) (e : Event Buffer) (st : Server) :
  total_current st -> total_current (state_of (handle toString w e st)).
Proof.
  unfold total_current. intros H. destruct e as [x|x data|x]; simpl.
  - rewrite last_total_app. reflexivity.
  - pose proof (on_message_state toString w x data st) as (Hc & Hl & _).
    rewrite Hc, Hl, last_total_app. exact H.
  - rewrite last_total_app. reflexivity.
Qed.

(** X3.  The console keeps count: in every state of every run, the total
    of the latest [Client connected] or [Client disconnected] line is the
    size of [clients]; while there is no such line, [clients] is empty. *)
Theorem logged_total_is_size (tr : list (Sockets * Event Buffer)) :
  match last_total (console (state_of (run toString tr initial))) with
  | Some n => n = List.length (clients (state_of (run toString tr initial)))
  | None => clients (state_of (run toString tr initial)) = []
  end.
Proof.
  change (total_current (state_of (run toString tr initial))).
  assert (H : total_current initial) by reflexivity.
  revert H. generalize initial as st.
  induction tr as [|[w e] tr IH]; intros st H; simpl; [exact H|].
  pose proof (handle_total_current w e st H) as Hh.
  destruct (handle toString w e st) as [st'|st']; simpl in *; auto.
Qed.

End RelayDelivery.

Lemma broadcast_reaches_every_open_member_witness :
  exists st',
    ChatServer.on_message Session.text (Session.closing 2) 1 Session.hello
      Session.three_connected = JS.Normal st' /\
    ChatServer.clients st' = ChatServer.clients Session.three_connected /\
    ChatServer.sent st' =
      ChatServer.sent Session.three_connected ++
      map (fun c => (c, Session.text Session.hello))
          (filter (ChatServer.eligible (Session.closing 2) 1)
                  (ChatServer.clients Session.three_connected)) /\
    forall r, ChatServer.inbox r st' =
              ChatServer.inbox r Session.three_connected ++
              (if JS.set_has Nat.eqb r (ChatServer.clients Session.three_connected)
                  && ChatServer.eligible (Session.closing 2) 1 r
               then [Session.text Session.hello] else []).
Proof.
  apply (broadcast_reaches_every_open_member Session.text Session.three_connect).
  - reflexivity.
  - intros c _ _. reflexivity.
Defined.

Section RegistryEdges.
Import JS ChatServer ChatLog.
Context {Buffer : Type} (toString : Buffer -> jsstring).

Lemma set_delete_filter (x : nat) (s : list nat) :
  set_delete Nat.eqb x s = filter (fun y => negb (Nat.eqb y x)) s.
Proof.
  induction s as [|y s IH]; simpl; [reflexivity|].
  destruct (Nat.eqb y x); simpl; rewrite IH; reflexivity.
Qed.

(** X4.  The ['close'] callback takes the socket out and keeps the others
    in the order they connected; for a socket that is not a member it
    changes nothing but the console, and running it twice is running it
    once. *)
Theorem close_keeps_the_others (socket : Socket) (st : Server) :
  clients (on_close socket st) =
    filter (fun c => negb (Nat.eqb c socket)) (clients st) /\
  ~ In socket (clients (on_close socket st)) /\
  (~ In socket (clients st) -> clients (on_close socket st) = clients st) /\
  clients (on_close socket (on_close socket st)) = clients (on_close socket st) /\
  sent (on_close socket st) = sent st.
Proof.
  simpl. split; [apply set_delete_filter|]. split.
  - rewrite set_delete_In. tauto.
  - split; [apply set_delete_absent|]. split; [|reflexivity].
    apply set_delete_absent. rewrite set_delete_In. tauto.
Qed.

(** X5.  A socket that connects and closes leaves the registry as it
    found it: for a socket that was not a member, [clients] after the
    ['connection'] and the ['close'] callback is [clients] before, whatever
    messages were relayed in between without an exception. *)
Theorem connect_then_close_restores (socket : Socket) (st st' : Server)
    (between : list (Sockets * Event Buffer)) :
  ~ In socket (clients st) ->
  Forall (fun we => is_lifecycle (snd we) = false) between ->
  run toString between (on_connection socket st) = Normal st' ->
  clients (on_close socket st') = clients st.
Proof.
  intros Hn Hb Hr.
  assert (Hc : clients st' = clients (on_connection socket st)).
  { clear Hn. revert Hr. generalize (on_connection socket st) as s0.
    induction between as [|[w e] tr IH]; intros s0 Hr; simpl in Hr.
    - injection Hr as <-. reflexivity.
    - inversion Hb as [|? ? He Htr]; subst. destruct e as [x|x data|x];
        simpl in He; try discriminate. simpl in Hr.
      pose proof (on_message_state toString w x data s0) as (Hcl & _).
      destruct (on_message toString w x data s0) as [s1|s1]; [|discriminate].
      simpl in Hcl. rewrite (IH Htr s1 Hr). exact Hcl. }
  simpl. rewrite Hc. simpl. unfold set_add.
  apply set_has_not_In in Hn. rewrite Hn.
  rewrite set_delete_filter, filter_app. simpl. rewrite Nat.eqb_refl. simpl.
  rewrite app_nil_r. rewrite <- set_delete_filter.
  apply set_delete_absent. apply set_has_not_In. exact Hn.
Qed.

Lemma received_app (c1 c2 : list LogLine) :
  received (c1 ++ c2) = received c1 ++ received c2.
Proof.
  induction c1 as [|l c1 IH]; simpl; [reflexivity|].
  destruct l; simpl; rewrite IH; reflexivity.
Qed.

Lemma sent_logged_step (w : Sockets) (e : Event Buffer) (st : Server) :
  (forall c m, In (c, m) (sent st) -> In m (received (console st))) ->
  let st' := state_of (handle toString w e st) in
  forall c m, In (c, m) (sent st') -> In m (received (console st')).
Proof.
  intros H. destruct e as [x|x data|x]; simpl.
  - intros c m Hs. rewrite received_app. apply in_or_app. left. eauto.
  - pose proof (on_message_state toString w x data st) as (_ & Hl & Hs).
    simpl in Hl, Hs. intros c m Hin. rewrite Hl, received_app.
    rewrite Hs in Hin. apply in_or_app. apply in_app_or in Hin.
    destruct Hin as [Hin|Hin]; [left; eauto|right].
    apply in_map_iff in Hin. destruct Hin as (y & Hy & _).
    injection Hy as _ <-. simpl. auto.
  - intros c m Hs. rewrite received_app. apply in_or_app. left. eauto.
Qed.

Lemma received_handled (tr : list (Sockets * Event Buffer)) (st : Server) :
  received (console (state_of (run toString tr st))) =
  received (console st) ++ map toString (messages (handled toString tr st)).
Proof.
  revert st. induction tr as [|[w e] tr IH]; intros st; simpl.
  - symmetry. apply app_nil_r.
  - destruct e as [x|x data|x]; simpl.
    + rewrite IH. simpl. rewrite received_app. simpl.
      rewrite app_nil_r. reflexivity.
    + pose proof (on_message_state toString w x data st) as (_ & Hl & _).
      destruct (on_message toString w x data st) as [s1|s1]; simpl in Hl |- *.
      * rewrite IH, Hl, received_app. simpl. rewrite <- app_assoc. reflexivity.
      * rewrite Hl, received_app. reflexivity.
    + rewrite IH. simpl. rewrite received_app. simpl.
      rewrite app_nil_r. reflexivity.
Qed.

Lemma sent_logged (tr : list (Sockets * Event Buffer)) (st : Server) :
  (forall c m, In (c, m) (sent st) -> In m (received (console st))) ->
  let st' := state_of (run toString tr st) in
  forall c m, In (c, m) (sent st') -> In m (received (console st')).
Proof.
  revert st. induction tr as [|[w e] tr IH]; intros st H; simpl; [exact H|].
  pose proof (sent_logged_step w e st H) as Hs.
  destruct (handle toString w e st) as [s1|s1]; simpl in Hs |- *.
  - apply IH. exact Hs.
  - exact Hs.
Qed.

Lemma handled_all (tr : list (Sockets * Event Buffer)) (st : Server) :
  returns (run toString tr st) = true -> handled toString tr st = tr.
Proof.
  revert st. induction tr as [|[w e] tr IH]; intros st H; simpl in *;
    [reflexivity|].
  destruct (handle toString w e st) as [s1|s1]; [|discriminate].
  f_equal. apply IH. exact H.
Qed.

(** X6.  A message is logged before it is relayed.  In the state a run
    leaves, also when an exception ended it, the [Received:] lines of the
    console are the texts of the messages the relay got to, the one
    whose callback threw among them, in the order they arrived, whether or
    not anyone was sent them; every text that was sent is among these
    lines; and a run that returned got to every message of its trace. *)
Theorem received_lines_follow_arrival (tr : list (Sockets * Event Buffer)) :
  let st := state_of (run toString tr initial) in
  received (console st) =
    map toString (messages (handled toString tr initial)) /\
  (forall c m, In (c, m) (sent st) -> In m (received (console st))) /\
  (returns (run toString tr initial) = true ->
   received (console st) = map toString (messages tr)).
Proof.
  split; [apply (received_handled tr initial)|]. split.
  - apply (sent_logged tr initial). simpl. tauto.
  - intros H. rewrite (received_handled tr initial), (handled_all tr initial H).
    reflexivity.
Qed.

(** X7.  The relay keeps the order of arrival for all senders, not only
    for one: when it handles a message of [s1] and later a message of
    [s2], any two sockets, each inbox is [pre ++ del1 ++ mid ++ del2 ++
    post] with [del1] what handling the first appended (nothing or one
    copy) and [del2] what handling the second appended. *)
Theorem arrival_order_preserved
    (tr1 tr2 tr3 : list (Sockets * Event Buffer)) (w1 w2 : Sockets)
    (s1 s2 : Socket) (d1 d2 : Buffer) (r : Socket) :
  let t1 := tr1 ++ [(w1, Message s1 d1)] in
  let t2 := t1 ++ tr2 in
  let t3 := t2 ++ [(w2, Message s2 d2)] in
  exists pre del1 mid del2 post,
    inbox_after toString tr1 r = pre /\
    inbox_after toString t1 r = pre ++ del1 /\
    inbox_after toString t2 r = pre ++ del1 ++ mid /\
    inbox_after toString t3 r = pre ++ del1 ++ mid ++ del2 /\
    inbox_after toString (t3 ++ tr3) r = pre ++ del1 ++ mid ++ del2 ++ post /\
    (del1 = [] \/ del1 = [toString d1]) /\
    (del2 = [] \/ del2 = [toString d2]).
Proof.
  intros t1 t2 t3.
  destruct (inbox_after_message toString tr1 w1 s1 d1 r) as (del1 & H1 & Hd1).
  destruct (inbox_after_app toString t1 tr2 r) as (mid & H2).
  destruct (inbox_after_message toString t2 w2 s2 d2 r) as (del2 & H3 & Hd2).
  destruct (inbox_after_app toString t3 tr3 r) as (post & H4).
  exists (inbox_after toString tr1 r), del1, mid, del2, post.
  fold t1 in H1. fold t2 in H2. fold t3 in H3.
  rewrite H4, H3, H2, H1. rewrite <- !app_assoc. auto 10.
Qed.

End RegistryEdges.

Lemma close_keeps_the_others_witness :
  ChatServer.clients (ChatServer.on_close 9 Session.three_connected) =
  ChatServer.clients Session.three_connected.
Proof.
  apply (proj1 (proj2 (proj2 (close_keeps_the_others 9 Session.three_connected)))).
  simpl. intuition discriminate.
Defined.

Lemma connect_then_close_restores_witness :
  ChatServer.clients
    (ChatServer.on_close 4
       (JS.state_of
          (ChatServer.run Session.text
             [(Session.healthy, ChatServer.Message 4 Session.hello)]
             (ChatServer.on_connection 4 Session.three_connected)))) =
  ChatServer.clients Session.three_connected.
Proof.
  apply (connect_then_close_restores Session.text 4 Session.three_connected _
           [(Session.healthy, ChatServer.Message 4 Session.hello)]).
  - simpl. intuition discriminate.
  - repeat constructor.
  - reflexivity.
Defined.

Lemma received_lines_follow_arrival_witness :
  ChatLog.received
    (ChatServer.console
       (JS.state_of
          (ChatServer.run Session.text
             (Session.three_connect ++
              [(Session.healthy, ChatServer.Message 1 Session.m1);
               (Session.healthy, ChatServer.Message 2 Session.m2)])
             ChatServer.initial))) =
  map Session.text
      (ChatLog.messages
         (Session.three_connect ++
          [(Session.healthy, ChatServer.Message 1 Session.m1);
           (Session.healthy, ChatServer.Message 2 Session.m2)])).
Proof.
  apply (proj2 (proj2 (received_lines_follow_arrival Session.text _))).
  reflexivity.
Defined.

(** ** From the keyboard of one client to the terminal of another *)

Section EndToEndChat.
Import JS ChatServer ChatClient ChatPeer.
Context {Buffer : Type} (toString : Buffer -> jsstring)
        (encode : jsstring -> Buffer).




End EndToEndChat.


(** ** The event source: headers first, and to each response its own
       events *)

Section EventSourceAudit.
Import JS SSEServer SSEStream.

Lemma headers_set_app (res : Response) (es1 es2 : list Effect) :
  headers_set res es1 -> headers_set res (es1 ++ es2).
Proof.
  unfold headers_set. rewrite !in_app_iff. tauto.
Qed.

Lemma split_snoc (A : Type) (l pre post : list A) (x y : A) :
  l ++ [y] = pre ++ x :: post ->
  (exists post', l = pre ++ x :: post' /\ post = post' ++ [y]) \/
  (pre = l /\ x = y /\ post = []).
Proof.
  revert pre. induction l as [|a l IH]; intros pre H.
  - destruct pre as [|b pre]; simpl in H.
    + injection H as <- <-. right. auto.
    + injection H as _ H. destruct pre; discriminate.
  - destruct pre as [|b pre]; simpl in H.
    + injection H as <- <-. left. exists l. auto.
    + injection H as <- H. apply IH in H.
      destruct H as [(post' & -> & ->)|(-> & -> & ->)].
      * left. exists post'. auto.
      * right. auto.
Qed.

Lemma headers_first_emit_others (es new : list Effect) :
  (forall e, In e new -> forall res chunk, e <> write res chunk) ->
  (forall pre res chunk post,
      es = pre ++ write res chunk :: post -> headers_set res pre) ->
  forall pre res chunk post,
    es ++ new = pre ++ write res chunk :: post -> headers_set res pre.
Proof.
  induction new as [|e new IH] using rev_ind; intros Hn H.
  - rewrite app_nil_r. exact H.
  - rewrite app_assoc. intros pre res chunk post Heq. apply split_snoc in Heq.
    destruct Heq as [(post' & Heq & _)|(_ & Heq & _)].
    + revert Heq. apply IH; [|exact H].
      intros e' Hin. apply Hn, in_or_app. auto.
    + symmetry in Heq. exfalso. revert Heq. apply Hn, in_or_app. simpl. auto.
Qed.

Lemma handle_headers_first (e : Event) (st : Server) :
  headers_first st -> headers_first (handle e st).
Proof.
  intros [Hi Hw]. destruct e as [r|i now|r]; simpl.
  - split; simpl.
    + intros iv Hin. apply in_app_or in Hin. destruct Hin as [Hin|[<-|[]]].
      * apply headers_set_app, Hi, Hin.
      * simpl. unfold headers_set. rewrite !in_app_iff. simpl. tauto.
    + apply headers_first_emit_others; [|exact Hw].
      intros e [<-|[<-|[<-|[]]]]; discriminate.
  - destruct (nth_error (intervals st) i) as [iv|] eqn:E; [|split; assumption].
    pose proof (Hi iv (nth_error_In _ _ E)) as Hiv.
    split; simpl.
    + intros iv' Hin. apply headers_set_app, Hi, Hin.
    + intros pre res chunk post.
      match goal with
      | |- effects st ++ [?a; ?b] = _ -> _ =>
          replace (effects st ++ [a; b]) with ((effects st ++ [a]) ++ [b])
            by (rewrite <- app_assoc; reflexivity)
      end.
      intros Heq. apply split_snoc in Heq.
      destruct Heq as [(post' & Heq & _)|(-> & Heq & _)].
      * revert Heq. apply (headers_first_emit_others (effects st) [_]); [|exact Hw].
        intros e [<-|[]]; discriminate.
      * injection Heq as -> _. apply headers_set_app, Hiv.
  - split; assumption.
Qed.

Lemma run_headers_first (tr : list Event) (st : Server) :
  headers_first st -> headers_first (run tr st).
Proof.
  revert st. induction tr as [|e tr IH]; intros st H; [exact H|].
  apply (IH (handle e st)), handle_headers_first, H.
Qed.

(** X9.  Headers come first: whenever the server writes a chunk to a
    response, the three headers of that response ([Content-Type:
    text/event-stream], [Cache-Control: no-cache], [Connection: keep-alive])
    were set earlier in the run. *)
Theorem headers_before_every_write (tr : list Event) (pre post : list Effect)
    (res : Response) (chunk : jsstring) :
  effects (run tr initial) = pre ++ write res chunk :: post ->
  headers_set res pre.
Proof.
  assert (H : headers_first initial).
  { split; [intros iv []|]. intros pre' res' chunk' post' Heq.
    destruct pre' as [|a [|b [|c pre']]]; discriminate. }
  apply (run_headers_first tr) in H. destruct H as [_ H]. apply H.
Qed.

Lemma written_emissions (res : Response) (tr : list Event) (st : Server) :
  written res (effects (run tr st)) =
  written res (effects st) ++
  map event_text (emissions res tr (intervals st)).
Proof.
  revert st. induction tr as [|e tr IH]; intros st.
  - simpl. symmetry. apply app_nil_r.
  - change (run (e :: tr) st) with (run tr (handle e st)). rewrite IH.
    destruct e as [r|i now|r]; simpl.
    + rewrite written_app. simpl. rewrite app_nil_r. reflexivity.
    + destruct (nth_error (intervals st) i) as [iv|]; [|reflexivity].
      simpl. rewrite written_app. simpl.
      destruct (Nat.eqb (target iv) res); simpl.
      * rewrite <- app_assoc. reflexivity.
      * rewrite app_nil_r. reflexivity.
    + reflexivity.
Qed.

Lemma emissions_none (res : Response) (tr : list Event) (ivs : list Interval) :
  ~ In res (requests tr) ->
  (forall iv, In iv ivs -> target iv <> res) ->
  emissions res tr ivs = [].
Proof.
  revert ivs. induction tr as [|e tr IH]; intros ivs Hr Hi; [reflexivity|].
  destruct e as [r|i now|r]; simpl in *.
  - apply IH; [tauto|]. intros iv Hin. apply in_app_or in Hin.
    destruct Hin as [Hin|[<-|[]]]; [auto|]. simpl. intros ->. tauto.
  - destruct (nth_error ivs i) as [iv|] eqn:E; [|auto].
    pose proof (Hi iv (nth_error_In _ _ E)) as Hne.
    apply Nat.eqb_neq in Hne. rewrite Hne. auto.
  - auto.
Qed.

(** X10.  To each response its own events: what a run has written to a
    response is one event per coming due of an interval of that response,
    at the clock readings of those ticks and in their order, and nothing
    else; a response that was never requested is written nothing. *)
Theorem response_gets_its_own_events (tr : list Event) (res : Response) :
  written res (effects (run tr initial)) =
    map event_text (emissions res tr []) /\
  (~ In res (requests tr) -> written res (effects (run tr initial)) = []).
Proof.
  split.
  - rewrite written_emissions. reflexivity.
  - intros H. rewrite written_emissions. simpl.
    rewrite emissions_none; [reflexivity | exact H | intros iv []].
Qed.

End EventSourceAudit.

Lemma headers_before_every_write_witness :
  SSEStream.headers_set 7
    (SSEServer.effects (SSEServer.run [SSEServer.Request 7] SSEServer.initial) ++
     [SSEServer.console_log SSEServer.blue (JS.lit "Sending message to client")]).
Proof.
  apply (headers_before_every_write
           [SSEServer.Request 7; SSEServer.Tick 0 Stream.t1] _ []
           7 (SSEServer.event_text Stream.t1)).
  reflexivity.
Defined.

Lemma response_gets_its_own_events_witness :
  SSEServer.written 8
    (SSEServer.effects
       (SSEServer.run [SSEServer.Request 7; SSEServer.Tick 0 Stream.t1]
          SSEServer.initial)) = [].
Proof.
  apply (proj2 (response_gets_its_own_events
                  [SSEServer.Request 7; SSEServer.Tick 0 Stream.t1] 8)).
  simpl. intuition discriminate.
Defined.

(** ** The stream of the server through the client *)

Section StreamThroughClient.
Import JS SSEServer SSEStream SSEClient.

Lemma startSSE_app (chunks1 chunks2 : list jsstring) (console : list LogLine) :
  startSSE (chunks1 ++ chunks2) console =
  match startSSE chunks1 console with
  | Normal console' => startSSE chunks2 console'
  | Throw console' => Throw console'
  end.
Proof.
  revert console. induction chunks1 as [|c chunks1 IH]; intros console;
    cbn [app startSSE].
  - reflexivity.
  - destruct (on_chunk c console); [apply IH | reflexivity].
Qed.

Lemma startSSE_events (nows : list Z) (console : list LogLine) :
  startSSE (map event_text nows) console =
  Normal (console ++ flat_map logged nows).
Proof.
  revert console. induction nows as [|now nows IH]; intros console;
    cbn [map startSSE flat_map].
  - rewrite app_nil_r. reflexivity.
  - rewrite on_chunk_event, IH. unfold logged.
    repeat (rewrite <- app_assoc; cbn [app]). reflexivity.
Qed.

(** X11.  The client can read what the server writes: when every write
    of a run to a response reaches [startSSE] as one chunk, no chunk makes
    it throw, and it logs, for each coming due of an interval of that
    response in order, the chunk, the payload with the time of that tick,
    and the headers. *)
Theorem stream_read_end_to_end (tr : list Event) (res : Response) :
  startSSE (written res (effects (run tr initial))) [] =
  Normal (flat_map logged (emissions res tr [])).
Proof.
  rewrite written_emissions.
  change (written res (effects initial)) with (@nil jsstring).
  change (intervals initial) with (@nil Interval). cbn [app].
  apply startSSE_events.
Qed.

(** X12.  One chunk of two events ends the stream for the client: the
    events before it are logged, the chunk itself is logged as received,
    then [JSON.parse] throws and whatever chunks follow are never read. *)
Theorem stream_lost_after_coalesced_chunk (nows : list Z) (a b : Z)
    (rest : list jsstring) :
  startSSE (map event_text nows ++ (event_text a ++ event_text b) :: rest) [] =
  Throw (flat_map logged nows ++
         [Received_chunk (event_text a ++ event_text b)]).
Proof.
  rewrite startSSE_app, startSSE_events. cbn [startSSE app].
  rewrite on_chunk_two_events. reflexivity.
Qed.

End StreamThroughClient.


(** ** An event cut in two *)

Section CutEvents.
Import JS SSEServer SSEStream SSEClient.

Lemma on_chunk_throws (chunk : jsstring) (console : list LogLine) :
  throws_on chunk = true ->
  on_chunk chunk console = Throw (console ++ [Received_chunk chunk]).
Proof.
  unfold throws_on, on_chunk. intros H. apply andb_prop in H.
  destruct H as [Hi Hp]. rewrite Hi.
  destruct (JSON_parse (data_of chunk)); [discriminate| |discriminate].
  reflexivity.
Qed.

Lemma stamp_char_facts (c : N) :
  stamp_char c = true -> plain c = true /\ is_white_space c = false.
Proof.
  unfold stamp_char, is_digit. rewrite !orb_true_iff, andb_true_iff.
  rewrite !N.eqb_eq, !N.leb_le. intros H.
  assert (Hr : (43 <= c <= 90)%N) by lia.
  assert (Hq : c <> 34%N /\ c <> 92%N) by lia.
  split.
  - unfold plain. destruct Hr, Hq.
    destruct (N.leb_spec 32 c); [|lia]. destruct (N.ltb_spec c 127); [|lia].
    destruct (N.eqb_spec c 34); [lia|]. destruct (N.eqb_spec c 92); [lia|].
    reflexivity.
  - unfold is_white_space. destruct Hr.
    repeat match goal with
           | |- context [(?a <=? ?b)%N] => destruct (N.leb_spec a b); try lia
           | |- context [(?a =? ?b)%N] => destruct (N.eqb_spec a b); try lia
           end; reflexivity.
Qed.

Lemma decimal_stamp (k : nat) (n : Z) : forallb stamp_char (decimal k n) = true.
Proof.
  apply forallb_forall. intros c Hc.
  pose proof (decimal_digits k n) as H. rewrite Forall_forall in H.
  unfold stamp_char. rewrite (H c Hc). reflexivity.
Qed.

Lemma toISOString_stamp (t : Z) : forallb stamp_char (toISOString t) = true.
Proof.
  unfold toISOString, iso_year.
  destruct ((0 <=? YearFromTime t)%Z && (YearFromTime t <=? 9999)%Z);
    [|destruct (YearFromTime t <? 0)%Z];
    rewrite !forallb_app, !decimal_stamp; reflexivity.
Qed.

Lemma forallb_firstn (f : N -> bool) (n : nat) (l : list N) :
  forallb f l = true -> forallb f (firstn n l) = true.
Proof.
  rewrite !forallb_forall. intros H x Hx. apply H.
  apply (In_nth _ _ 0%N) in Hx. destruct Hx as (i & Hi & <-).
  rewrite length_firstn in Hi. rewrite nth_firstn.
  destruct (Nat.ltb_spec i n); [|lia]. apply nth_In. lia.
Qed.

Lemma stamp_plain (s : jsstring) :
  forallb stamp_char s = true -> forallb plain s = true.
Proof.
  rewrite !forallb_forall. intros H x Hx. apply stamp_char_facts, H, Hx.
Qed.

Lemma event_text_shape (now : Z) :
  event_text now = event_head ++ toISOString now ++ [34; 125; 10; 10]%N.
Proof.
  unfold event_text. rewrite stringify_payload. unfold payload_text, event_head.
  simpl. rewrite <- app_assoc. reflexivity.
Qed.

Lemma head_cuts_throw :
  forallb (fun n => throws_on (firstn n event_head)) (seq 5 40) = true.
Proof. vm_compute. reflexivity. Qed.

Lemma parse_chars_unterminated (s : jsstring) :
  forallb plain s = true -> parse_chars s = None.
Proof.
  induction s as [|c s IH]; intros H; [reflexivity|].
  simpl in H. apply andb_prop in H. destruct H as [Hc Hs].
  apply plain_facts in Hc. destruct Hc as (H1 & H2 & H3 & H4).
  cbn [parse_chars].
  destruct (N.eqb_spec c 34); [lia|].
  destruct (N.ltb_spec c 32); [lia|].
  destruct (N.eqb_spec c 92); [lia|].
  rewrite (IH Hs). reflexivity.
Qed.

Lemma parse_members_unterminated (f : nat) (key s : jsstring)
    (acc : list (jsstring * json)) :
  forallb plain key = true -> forallb plain s = true ->
  parse_members (S (S f)) (34%N :: key ++ 34%N :: 58%N :: 34%N :: s) acc =
  SyntaxError.
Proof.
  intros Hk Hs. cbn [parse_members skip_ws]. change (json_ws 34) with false.
  cbv beta iota. change (34 =? 34)%N with true. cbv beta iota.
  rewrite (parse_chars_plain key _ Hk). cbn [skip_ws].
  change (json_ws 58) with false. cbv beta iota.
  change (58 =? 58)%N with true. cbv beta iota.
  cbn [parse_value skip_ws]. change (json_ws 34) with false.
  cbv beta iota. change (34 =? 123)%N with false. change (34 =? 91)%N with false.
  change (34 =? 34)%N with true. cbv beta iota.
  rewrite (parse_chars_unterminated s Hs). reflexivity.
Qed.

Lemma parse_members_unclosed (f : nat) (key str : jsstring)
    (acc : list (jsstring * json)) :
  forallb plain key = true -> forallb plain str = true ->
  parse_members (S (S f)) (34%N :: key ++ 34%N :: 58%N :: 34%N :: str ++ [34%N])
    acc = SyntaxError.
Proof.
  intros Hk Hs. cbn [parse_members skip_ws]. change (json_ws 34) with false.
  cbv beta iota. change (34 =? 34)%N with true. cbv beta iota.
  rewrite (parse_chars_plain key _ Hk). cbn [skip_ws].
  change (json_ws 58) with false. cbv beta iota.
  change (58 =? 58)%N with true. cbv beta iota.
  rewrite (parse_value_string f str [] Hs). reflexivity.
Qed.

Lemma object_head_app (t : jsstring) :
  object_head ++ t =
  (123 :: 34 :: lit "msg" ++ 34 :: 58 :: 34 :: lit "Hello from fetch SSE" ++
   34 :: 44 :: 34 :: lit "time" ++ 34 :: 58 :: 34 :: t)%N.
Proof. reflexivity. Qed.

(** The object cut inside the time, or before the closing brace. *)
Lemma JSON_parse_cut_object (t : jsstring) :
  forallb plain t = true \/
  (exists str, t = str ++ [34%N] /\ forallb plain str = true) ->
  JSON_parse (object_head ++ t) = SyntaxError.
Proof.
  intros H. unfold JSON_parse.
  assert (Hl : 2 <= List.length (object_head ++ t))
    by (rewrite object_head_app; cbn [List.length]; lia).
  replace (2 * List.length (object_head ++ t) + 1)
    with (S (S (S (S (2 * List.length (object_head ++ t) - 3))))) by lia.
  rewrite object_head_app, parse_value_object.
  rewrite (parse_members_string _ (lit "msg") (lit "Hello from fetch SSE"))
    by reflexivity.
  change (44 =? 44)%N with true. cbv beta iota.
  destruct H as [H|(str & -> & H)].
  - rewrite (parse_members_unterminated _ (lit "time") t) by (reflexivity || exact H).
    reflexivity.
  - rewrite (parse_members_unclosed _ (lit "time") str) by (reflexivity || exact H).
    reflexivity.
Qed.

Lemma data_of_cut (t : jsstring) (c : N) :
  is_white_space c = false ->
  data_of (event_head ++ t ++ [c]) = object_head ++ t ++ [c].
Proof.
  intros Hc. unfold data_of, event_head. rewrite <- app_assoc, replace_prefix.
  unfold trim. change (trimStart (object_head ++ t ++ [c]))
    with (object_head ++ t ++ [c]).
  rewrite app_assoc. apply trimEnd_snoc, Hc.
Qed.

Lemma includes_event_head (t : jsstring) :
  includes (event_head ++ t) (lit "data:") = true.
Proof. reflexivity. Qed.

Lemma tail_cut_throws (t : jsstring) (c : N) :
  is_white_space c = false ->
  forallb plain (t ++ [c]) = true \/ (c = 34%N /\ forallb plain t = true) ->
  throws_on (event_head ++ t ++ [c]) = true.
Proof.
  intros Hc H. unfold throws_on.
  rewrite includes_event_head, (data_of_cut t c Hc), JSON_parse_cut_object.
  - reflexivity.
  - destruct H as [H|[-> H]]; [left; exact H|]. right. exists t. auto.
Qed.

Lemma payload_length (now : Z) :
  List.length (JSON_stringify (payload now)) =
  40 + List.length (toISOString now).
Proof.
  rewrite stringify_payload. unfold payload_text. simpl.
  rewrite length_app. simpl. lia.
Qed.

(** X13.  An event cut in two ends the stream: when a chunk stops
    anywhere from the colon of [data:] to just before the closing brace of
    the object, at any clock reading, it holds [data:], so [JSON.parse] is
    called on what there is of the object and throws. *)
Theorem cut_event_throws (now : Z) (n : nat) (console : list LogLine) :
  5 <= n -> n < 6 + List.length (JSON_stringify (payload now)) ->
  on_chunk (firstn n (event_text now)) console =
  Throw (console ++ [Received_chunk (firstn n (event_text now))]).
Proof.
  intros Hlo Hhi. apply on_chunk_throws.
  rewrite payload_length in Hhi. rewrite event_text_shape.
  pose proof (toISOString_stamp now) as Hst.
  set (iso := toISOString now) in *.
  assert (Hh : List.length event_head = 44) by reflexivity.
  rewrite firstn_app, Hh.
  destruct (Nat.le_gt_cases n 44) as [Hn|Hn].
  - replace (n - 44) with 0 by lia. simpl firstn at 2. rewrite app_nil_r.
    pose proof head_cuts_throw as H. rewrite forallb_forall in H.
    apply H, in_seq. lia.
  - rewrite firstn_all2 by lia. rewrite firstn_app.
    destruct (Nat.le_gt_cases (n - 44) (List.length iso)) as [Hj|Hj].
    + replace (n - 44 - List.length iso) with 0 by lia. simpl firstn at 2.
      rewrite app_nil_r.
      assert (Hne : firstn (n - 44) iso <> []).
      { intros E. apply (f_equal (@List.length N)) in E.
        rewrite length_firstn in E. simpl in E. lia. }
      destruct (exists_last Hne) as (t & c & E). rewrite E.
      pose proof (forallb_firstn stamp_char (n - 44) iso Hst) as Hf.
      rewrite E in Hf.
      assert (Hc : stamp_char c = true).
      { rewrite forallb_app in Hf. apply andb_prop in Hf. destruct Hf as [_ Hf].
        simpl in Hf. rewrite andb_true_r in Hf. exact Hf. }
      apply tail_cut_throws; [apply stamp_char_facts, Hc|].
      left. apply stamp_plain, Hf.
    + rewrite firstn_all2 by lia.
      replace (n - 44 - List.length iso) with 1 by lia. simpl firstn.
      apply tail_cut_throws; [reflexivity|]. right. split; [reflexivity|].
      apply stamp_plain, Hst.
Qed.

End CutEvents.

Lemma cut_event_throws_witness :
  SSEClient.on_chunk (firstn 20 (SSEServer.event_text Stream.t1)) [] =
  JS.Throw ([] ++ [SSEClient.Received_chunk
                     (firstn 20 (SSEServer.event_text Stream.t1))]).
Proof.
  apply (cut_event_throws Stream.t1 20 []).
  - repeat constructor.
  - vm_compute. repeat constructor.
Defined.

Section QuietCuts.
Import JS SSEServer SSEStream SSEClient.

Lemma on_chunk_no_data (chunk : jsstring) (console : list LogLine) :
  includes chunk (lit "data:") = false ->
  on_chunk chunk console = Normal (console ++ [Received_chunk chunk]).
Proof. unfold on_chunk. intros ->. reflexivity. Qed.

Lemma includes_without_first (s p : jsstring) (a : N) :
  forallb (fun c => negb (a =? c)%N) s = true -> includes s (a :: p) = false.
Proof.
  induction s as [|c s IH]; intros H; [reflexivity|].
  simpl in H. apply andb_prop in H. destruct H as [Hc Hs].
  apply negb_true_iff in Hc. cbn [includes starts_with]. rewrite Hc.
  apply IH, Hs.
Qed.

Lemma stamp_no_d (s : jsstring) :
  forallb stamp_char s = true ->
  forallb (fun c => negb (100 =? c)%N) s = true.
Proof.
  rewrite !forallb_forall. intros H c Hc. specialize (H c Hc).
  unfold stamp_char, is_digit in H.
  rewrite !orb_true_iff, andb_true_iff, !N.eqb_eq, !N.leb_le in H.
  apply negb_true_iff, N.eqb_neq. lia.
Qed.

(** X14.  An event cut inside the word [data] is lost without a sound:
    neither part holds [data:], so both are logged as received, nothing is
    parsed and nothing is thrown. *)
Theorem cut_in_prefix_loses_event (now : Z) (n : nat) (console : list LogLine) :
  1 <= n <= 4 ->
  startSSE [firstn n (event_text now); skipn n (event_text now)] console =
  Normal (console ++ [Received_chunk (firstn n (event_text now));
                      Received_chunk (skipn n (event_text now))]).
Proof.
  intros Hn. cbn [startSSE].
  assert (H1 : includes (firstn n (event_text now)) (lit "data:") = false).
  { rewrite event_text_shape, firstn_app.
    replace (n - List.length event_head) with 0
      by (change (List.length event_head) with 44; lia).
    simpl firstn at 2. rewrite app_nil_r.
    destruct n as [|[|[|[|[|n]]]]]; try lia; reflexivity. }
  assert (H2 : includes (skipn n (event_text now)) (lit "data:") = false).
  { rewrite event_text_shape, skipn_app.
    replace (n - List.length event_head) with 0
      by (change (List.length event_head) with 44; lia).
    change (skipn 0 (toISOString now ++ [34; 125; 10; 10]%N))
      with (toISOString now ++ [34; 125; 10; 10]%N).
    apply (includes_without_first _ (lit "ata:") 100%N).
    rewrite forallb_app, forallb_app, (stamp_no_d _ (toISOString_stamp now)).
    destruct n as [|[|[|[|[|n]]]]]; try lia; reflexivity. }
  rewrite (on_chunk_no_data _ _ H1), (on_chunk_no_data _ _ H2).
  rewrite <- app_assoc. reflexivity.
Qed.

Lemma data_of_event_line (now : Z) (feeds : jsstring) :
  forallb is_white_space feeds = true ->
  data_of (lit "data: " ++ JSON_stringify (payload now) ++ feeds) =
  JSON_stringify (payload now).
Proof.
  intros Hw. unfold data_of. rewrite replace_prefix, stringify_payload.
  unfold trim. rewrite trimStart_payload_text.
  induction feeds as [|c feeds IH] using rev_ind.
  - rewrite app_nil_r. apply trimEnd_payload_text.
  - rewrite forallb_app in Hw. apply andb_prop in Hw. destruct Hw as [Hf Hc].
    simpl in Hc. rewrite andb_true_r in Hc.
    rewrite app_assoc, trimEnd_snoc_ws by exact Hc. apply IH, Hf.
Qed.

(** X15.  An event cut after its closing brace is read all the same: the
    first part, the whole object with none or one of the two line feeds,
    is parsed and logged, and the rest, line feeds only, is logged as
    received. *)
Theorem cut_after_object_is_harmless (now : Z) (n : nat)
    (console : list LogLine) :
  6 + List.length (JSON_stringify (payload now)) <= n ->
  n <= List.length (event_text now) ->
  startSSE [firstn n (event_text now); skipn n (event_text now)] console =
  Normal (console ++ [Received_chunk (firstn n (event_text now));
                      Parsed_Data (payload now); All_headers;
                      Received_chunk (skipn n (event_text now))]).
Proof.
  intros Hlo Hhi. unfold event_text in *.
  remember (JSON_stringify (payload now)) as body eqn:Eb.
  rewrite !length_app in Hhi. change (List.length (lit "data: ")) with 6 in Hhi.
  change (List.length [10; 10]%N) with 2 in Hhi.
  assert (Hcut : exists k, k <= 2 /\
            firstn n (lit "data: " ++ body ++ [10; 10]%N) =
              lit "data: " ++ body ++ firstn k [10; 10]%N /\
            skipn n (lit "data: " ++ body ++ [10; 10]%N) = skipn k [10; 10]%N).
  { exists (n - 6 - List.length body). split; [lia|].
    rewrite firstn_app, skipn_app. change (List.length (lit "data: ")) with 6.
    rewrite firstn_all2 by (simpl; lia). rewrite skipn_all2 by (simpl; lia).
    rewrite firstn_app, skipn_app.
    rewrite firstn_all2 by lia. rewrite skipn_all2 by lia. auto. }
  destruct Hcut as (k & Hk & -> & ->). cbn [startSSE].
  assert (Hfirst : on_chunk (lit "data: " ++ body ++ firstn k [10; 10]%N) console =
                   Normal (console ++
                           [Received_chunk (lit "data: " ++ body ++
                                            firstn k [10; 10]%N)] ++
                           [Parsed_Data (payload now); All_headers])).
  { unfold on_chunk. subst body. rewrite data_of_event_line, payload_parses.
    - replace (includes _ (lit "data:")) with true by reflexivity.
      rewrite <- app_assoc. reflexivity.
    - destruct k as [|[|[|k]]]; try lia; reflexivity. }
  rewrite Hfirst. rewrite on_chunk_no_data.
  - rewrite <- !app_assoc. reflexivity.
  - destruct k as [|[|[|k]]]; try lia; reflexivity.
Qed.

End QuietCuts.

Lemma cut_in_prefix_loses_event_witness :
  SSEClient.startSSE [firstn 3 (SSEServer.event_text Stream.t1);
                      skipn 3 (SSEServer.event_text Stream.t1)] [] =
  JS.Normal ([] ++ [SSEClient.Received_chunk (firstn 3 (SSEServer.event_text Stream.t1));
                    SSEClient.Received_chunk (skipn 3 (SSEServer.event_text Stream.t1))]).
Proof.
  apply (cut_in_prefix_loses_event Stream.t1 3 []). lia.
Defined.

Lemma cut_after_object_is_harmless_witness :
  SSEClient.startSSE [firstn 71 (SSEServer.event_text Stream.t1);
                      skipn 71 (SSEServer.event_text Stream.t1)] [] =
  JS.Normal ([] ++ [SSEClient.Received_chunk (firstn 71 (SSEServer.event_text Stream.t1));
                    SSEClient.Parsed_Data (SSEServer.payload Stream.t1);
                    SSEClient.All_headers;
                    SSEClient.Received_chunk (skipn 71 (SSEServer.event_text Stream.t1))]).
Proof.
  apply (cut_after_object_is_harmless Stream.t1 71 []).
  - vm_compute. repeat constructor.
  - vm_compute. repeat constructor.
Defined.
